(** * SharedStreets tile reader: a model of [sharedstreets/tile.py]

    The development embeds the functions of [tile.py] as Rocq functions and
    proves properties of the frame decoder ([iter_objects]), the bounding-box
    test ([is_inside]), the three-way join ([get_tile]) and the projections to
    GeoJSON ([geometry_feature], [intersection_feature], [reference_feature],
    [make_geojson]).

    Conventions.
    - A Python exception is a value of [exn]; a call that may raise returns
      [res A].
    - A generator is the finite trace [gen A] of what it yields, ended by a
      normal stop or by the exception that interrupts it.
    - A byte string is a [list byte]; a Python [str] is a [string].
    - Latitudes, longitudes and every other protobuf [double] are values of an
      abstract type [coord] compared with [float_lt]; Python's built-in
      [round] on them is the parameter [py_round].
    - A [dict] is an association list in insertion order. *)

From Stdlib Require Import Strings.Byte Ascii String.
From Stdlib Require Import List ZArith NArith Arith Bool Lia.
Import ListNotations.

Set Implicit Arguments.

(* ================================================================== *)
(** * Exceptions, results and generators *)

(** The exceptions that [tile.py] and the functions it calls can raise. *)
Inductive exn : Type :=
| IndexError    (* indexing a byte string past its end *)
| DecodeError   (* google.protobuf.message.DecodeError *)
| ValueError.   (* max()/min() of an empty sequence, unpacking a wrong count *)

Inductive res (A : Type) : Type :=
| Ok (a : A)
| Raise (e : exn).
Arguments Ok {A} a.
Arguments Raise {A} e.

Definition bind {A B : Type} (m : res A) (k : A -> res B) : res B :=
  match m with
  | Ok a => k a
  | Raise e => Raise e
  end.

Declare Scope res_scope.
Delimit Scope res_scope with res.
Notation "x <- m ;; k" := (bind m (fun x => k))
  (at level 61, m at next level, right associativity) : res_scope.
Notation "' p <- m ;; k" := (bind m (fun x => match x with p => k end))
  (at level 61, p pattern, m at next level, right associativity) : res_scope.
Open Scope res_scope.

(** What a generator does when it is run to its end: the objects it yields,
    in order, followed by [GStop] (the generator returns) or [GRaise e] (the
    generator raises [e] when asked for its next object). *)
Inductive gen (A : Type) : Type :=
| GStop
| GYield (a : A) (rest : gen A)
| GRaise (e : exn).
Arguments GStop {A}.
Arguments GYield {A} a rest.
Arguments GRaise {A} e.

(** [yields l g]: the generator that yields the objects of [l] and then
    goes on as [g]. *)
Fixpoint yields {A : Type} (l : list A) (g : gen A) : gen A :=
  match l with
  | [] => g
  | a :: l' => GYield a (yields l' g)
  end.

(** The objects a generator yields before it stops or raises. *)
Fixpoint yielded {A : Type} (g : gen A) : list A :=
  match g with
  | GYield a rest => a :: yielded rest
  | _ => []
  end.

(** The exception that ends the generator, if any. *)
Fixpoint raised {A : Type} (g : gen A) : option exn :=
  match g with
  | GStop => None
  | GYield _ rest => raised rest
  | GRaise e => Some e
  end.

(* ================================================================== *)
(** * Byte strings and the varint decoder *)

(** [buffer[a:b]] for [0 <= a]: a slice never raises, it is cut at the end
    of the buffer. *)
Definition slice {A : Type} (buffer : list A) (a b : nat) : list A :=
  firstn (b - a) (skipn a buffer).

(** Modelled from the spec: [_DecodeVarint32] is imported from
    [google.protobuf.internal.decoder] and is not part of [tile.py].  It
    reads a protobuf unsigned varint (little-endian, seven bits per byte,
    high bit set on every byte but the last) at [pos] and returns the value,
    masked to 32 bits, with the position after it.  Reading a byte at or
    after the end of the buffer raises; so does a varint that goes on after
    ten bytes.  The loop of the library is

      result = 0; shift = 0
      while 1:
        b = buffer[pos]
        result |= ((b & 0x7f) << shift)
        pos += 1
        if not (b & 0x80): result &= mask; return (result, pos)
        shift += 7
        if shift >= 64: raise _DecodeError('Too many bytes when decoding varint.')

    [DecodeVarint_loop] walks the bytes from [buffer[pos]] on: its first
    argument is [buffer[pos:]]. *)
Fixpoint DecodeVarint_loop (mask : N) (bytes : list byte) (pos : nat)
    (result shift : N) : res (N * nat) :=
  match bytes with
  | [] => Raise IndexError
  | b :: bytes' =>
      let result := N.lor result (N.shiftl (N.land (Byte.to_N b) 127) shift) in
      let pos := S pos in
      if N.eqb (N.land (Byte.to_N b) 128) 0 then
        Ok (N.land result mask, pos)
      else
        let shift := (shift + 7)%N in
        if (64 <=? shift)%N then Raise DecodeError
        else DecodeVarint_loop mask bytes' pos result shift
  end.

Definition DecodeVarint32 (buffer : list byte) (pos : nat) : res (N * nat) :=
  DecodeVarint_loop (N.ones 32) (skipn pos buffer) pos 0 0.

(* ================================================================== *)
(** * [iter_objects]: the frame decoder *)

Section IterObjects.

(** The record class: [DataClass()] followed by [ParseFromString], which
    raises [DecodeError] on bytes it rejects ([None]). *)
Variable A : Type.
Variable ParseFromString : list byte -> option A.

(** The [while] loop of [iter_objects].  Every turn moves [position] forward
    by at least one byte, so [fuel] turns are enough when [fuel] is the
    number of bytes left (lemma [iter_loop_fuel]). *)
Fixpoint iter_loop (fuel : nat) (content : list byte) (position : nat)
    : gen A :=
  match fuel with
  | O => GStop
  | S fuel' =>
      if position <? length content then
        match DecodeVarint32 content position with
        | Raise e => GRaise e
        | Ok (message_length, new_position) =>
            let position := new_position in
            let message :=
              slice content position (position + N.to_nat message_length) in
            let position := position + N.to_nat message_length in
            match ParseFromString message with
            | None => GRaise DecodeError
            | Some object => GYield object (iter_loop fuel' content position)
            end
        end
      else GStop
  end.

(** [iter_objects url DataClass], given the body [content] of the response
    to [requests.get(url)]. *)
Definition iter_objects (content : list byte) : gen A :=
  iter_loop (length content) content 0.

End IterObjects.

(* ================================================================== *)
(** * Python sequences *)

(** [range(start, stop, step)] for [0 < step] and natural bounds. *)
Definition py_range (start stop step : nat) : list nat :=
  map (fun k => start + step * k) (seq 0 ((stop - start + (step - 1)) / step)).

(** [l[i]] for [0 <= i]. *)
Definition getitem {A : Type} (l : list A) (i : nat) : res A :=
  match nth_error l i with
  | Some v => Ok v
  | None => Raise IndexError
  end.

(** [[f(a) for a in l]], where [f] may raise. *)
Fixpoint comprehension {A B : Type} (f : A -> res B) (l : list A)
    : res (list B) :=
  match l with
  | [] => Ok []
  | a :: l' => b <- f a ;; bs <- comprehension f l' ;; Ok (b :: bs)
  end.

(** [x or y] on conditions that may raise: [y] is not evaluated, and so
    cannot raise, when [x] is true. *)
Definition py_or (x y : res bool) : res bool :=
  b <- x ;; if b then Ok true else y.

(* ================================================================== *)
(** * Dictionaries and sets keyed by strings *)

(** A [dict] in insertion order. *)
Definition dict (V : Type) : Type := list (string * V).

(** [d[k] = v]: a key already present keeps its place and takes the new
    value; a new key goes last. *)
Fixpoint dict_set {V : Type} (k : string) (v : V) (d : dict V) : dict V :=
  match d with
  | [] => [(k, v)]
  | (k', v') :: d' =>
      if String.eqb k k' then (k, v) :: d' else (k', v') :: dict_set k v d'
  end.

Fixpoint dict_get {V : Type} (k : string) (d : dict V) : option V :=
  match d with
  | [] => None
  | (k', v') :: d' => if String.eqb k k' then Some v' else dict_get k d'
  end.

(** [k in d]. *)
Definition dict_mem {V : Type} (k : string) (d : dict V) : bool :=
  match dict_get k d with
  | Some _ => true
  | None => false
  end.

Definition dict_keys {V : Type} (d : dict V) : list string := map fst d.
Definition dict_values {V : Type} (d : dict V) : list V := map snd d.

(** [{key(a): a for a in g if cond(a)}] over a generator [g]: the objects
    are taken one by one, [cond] is evaluated on each as it comes, and the
    first exception, of the generator or of [cond], ends the comprehension. *)
Fixpoint dict_comprehension {A : Type} (key : A -> string)
    (cond : A -> res bool) (g : gen A) (acc : dict A) : res (dict A) :=
  match g with
  | GStop => Ok acc
  | GRaise e => Raise e
  | GYield a rest =>
      c <- cond a ;;
      dict_comprehension key cond rest
        (if c then dict_set (key a) a acc else acc)
  end.

(** A [set] of strings, without duplicates. *)
Definition set_of (l : list string) : list string := nodup string_dec l.

(** [k in s]. *)
Definition set_mem (k : string) (s : list string) : bool :=
  existsb (String.eqb k) s.

(* ================================================================== *)
(** * [truncate_id] *)

(** [id[:12]]. *)
Definition truncate_id (id : string) : string := substring 0 12 id.

(* ================================================================== *)
(** * Records of the SharedStreets tiles and of the output document *)

Section Records.

(** The type of a protobuf [double] (a Python [float]). *)
Variable coord : Type.

(** [ModestMaps.Geo.Location]. *)
Record Location : Type := {
  loc_lat : coord;
  loc_lon : coord
}.

(** [SharedStreetsGeometry]. *)
Record Geometry : Type := {
  geom_id : string;
  geom_fromIntersectionId : string;
  geom_toIntersectionId : string;
  geom_forwardReferenceId : string;
  geom_backReferenceId : string;
  geom_roadClass : Z;
  geom_lonlats : list coord
}.

(** [SharedStreetsIntersection]. *)
Record Intersection : Type := {
  inter_id : string;
  inter_lon : coord;
  inter_lat : coord;
  inter_inboundReferenceIds : list string;
  inter_outboundReferenceIds : list string
}.

(** [LocationReference]. *)
Record LocationReference : Type := {
  LR_intersectionId : string;
  LR_lon : coord;
  LR_lat : coord;
  LR_distanceToNextRef : Z;
  LR_inboundBearing : Z;
  LR_outboundBearing : Z
}.

(** [SharedStreetsReference]. *)
Record Reference : Type := {
  ref_id : string;
  ref_geometryId : string;
  ref_formOfWay : Z;
  ref_locationReferences : list LocationReference
}.

(** The values [json.dumps] prints: [None], an [int], a [float], a [str],
    a [list], and a [dict] literal with its keys in the order written. *)
Unset Elimination Schemes.
Inductive json : Type :=
| JNull
| JInt (n : Z)
| JFloat (x : coord)
| JStr (s : string)
| JList (l : list json)
| JObj (items : list (string * json)).
Set Elimination Schemes.

(** [obj[k]] on a [JObj]. *)
Definition json_get (k : string) (obj : json) : option json :=
  match obj with
  | JObj items => dict_get k items
  | _ => None
  end.

End Records.

Arguments JNull {coord}.
Arguments JInt {coord} n.
Arguments JStr {coord} s.

(* ================================================================== *)
(** * The functions of [tile.py] *)

Section Tile.

Variable coord : Type.

(** [a < b] on floats. *)
Variable float_lt : coord -> coord -> bool.

(** The built-in [round(x, ndigits)] on a float. *)
Variable py_round : coord -> Z -> coord.

(** The classes of [data_classes]: [ParseFromString] of the protobuf
    classes generated in [sharedstreets_pb2]; [None] stands for
    [DecodeError]. *)
Variable ParseGeometry : list byte -> option (Geometry coord).
Variable ParseIntersection : list byte -> option (Intersection coord).
Variable ParseReference : list byte -> option (Reference coord).

Definition round_coord (float : coord) : coord := py_round float 7.

(** The built-in [max]: the first of the greatest items, found with
    [item > maxitem]; [ValueError] on an empty sequence. *)
Definition py_max (l : list coord) : res coord :=
  match l with
  | [] => Raise ValueError
  | x :: l' =>
      Ok (fold_left (fun m item => if float_lt m item then item else m) l' x)
  end.

(** The built-in [min], found with [item < minitem]. *)
Definition py_min (l : list coord) : res coord :=
  match l with
  | [] => Raise ValueError
  | x :: l' =>
      Ok (fold_left (fun m item => if float_lt item m then item else m) l' x)
  end.

(** [[lonlats[i] for i in range(start, len(lonlats), 2)]]. *)
Definition every_second (start : nat) (lonlats : list coord)
    : res (list coord) :=
  comprehension (getitem lonlats) (py_range start (length lonlats) 2).

Definition is_inside (southwest northeast : Location coord)
    (geometry : Geometry coord) : res bool :=
  lons <- every_second 0 (geom_lonlats geometry) ;;
  lats <- every_second 1 (geom_lonlats geometry) ;;
  c <- py_or (m <- py_max lons ;; Ok (float_lt m (loc_lon southwest)))
             (m <- py_min lons ;; Ok (float_lt (loc_lon northeast) m)) ;;
  if c then Ok false
  else
    c <- py_or (m <- py_max lats ;; Ok (float_lt m (loc_lat southwest)))
               (m <- py_min lats ;; Ok (float_lt (loc_lat northeast) m)) ;;
    if c then Ok false
    else Ok true.

(** [get_tile(zoom, x, y)].  The tile arithmetic of ModestMaps and the three
    HTTP requests are outside [tile.py]: [tile_sw] and [tile_ne] are the
    corners it computes for the tile, [geom_content], [inter_content] and
    [ref_content] the bodies of the responses for the three layers. *)
Definition get_tile (tile_sw tile_ne : Location coord)
    (geom_content inter_content ref_content : list byte)
    : res (dict (Geometry coord) * dict (Intersection coord)
           * dict (Reference coord)) :=
  geometries <-
    dict_comprehension (@geom_id coord) (is_inside tile_sw tile_ne)
      (iter_objects ParseGeometry geom_content) [] ;;
  let intersection_ids :=
    set_of (flat_map
              (fun geom => [geom_fromIntersectionId geom;
                            geom_toIntersectionId geom])
              (dict_values geometries)) in
  intersections <-
    dict_comprehension (@inter_id coord)
      (fun inter => Ok (set_mem (inter_id inter) intersection_ids))
      (iter_objects ParseIntersection inter_content) [] ;;
  references <-
    dict_comprehension (@ref_id coord)
      (fun ref => Ok (dict_mem (ref_geometryId ref) geometries))
      (iter_objects ParseReference ref_content) [] ;;
  Ok (geometries, intersections, references).

Local Open Scope string_scope.

Definition geometry_feature (geometry : Geometry coord) : res (json coord) :=
  xs <- comprehension
          (fun i => v <- getitem (geom_lonlats geometry) i ;;
                    Ok (round_coord v))
          (py_range 0 (length (geom_lonlats geometry)) 2) ;;
  ys <- comprehension
          (fun i => v <- getitem (geom_lonlats geometry) i ;;
                    Ok (round_coord v))
          (py_range 1 (length (geom_lonlats geometry)) 2) ;;
  Ok (JObj [
    ("type", JStr "Feature");
    ("role", JStr "SharedStreets:Geometry");
    ("id", JStr (truncate_id (geom_id geometry)));
    ("properties", JObj [
       ("id", JStr (truncate_id (geom_id geometry)));
       ("forwardReferenceId",
          JStr (truncate_id (geom_forwardReferenceId geometry)));
       ("startIntersectionId",
          JStr (truncate_id (geom_fromIntersectionId geometry)));
       ("backReferenceId",
          JStr (truncate_id (geom_backReferenceId geometry)));
       ("endIntersectionId",
          JStr (truncate_id (geom_toIntersectionId geometry)));
       ("roadClass", JInt (geom_roadClass geometry))]);
    ("geometry", JObj [
       ("type", JStr "LineString");
       ("coordinates",
          JList (map (fun xy => JList [JFloat (fst xy); JFloat (snd xy)])
                     (combine xs ys)))])]).

Definition intersection_feature (intersection : Intersection coord)
    : json coord :=
  JObj [
    ("type", JStr "Feature");
    ("role", JStr "SharedStreets:Intersection");
    ("id", JStr (truncate_id (inter_id intersection)));
    ("properties", JObj [
       ("id", JStr (truncate_id (inter_id intersection)));
       ("inboundSegmentIds",
          JList (map (fun id => JStr (truncate_id id))
                     (inter_inboundReferenceIds intersection)));
       ("outboundSegmentIds",
          JList (map (fun id => JStr (truncate_id id))
                     (inter_outboundReferenceIds intersection)))]);
    ("geometry", JObj [
       ("type", JStr "Point");
       ("coordinates",
          JList [JFloat (round_coord (inter_lon intersection));
                 JFloat (round_coord (inter_lat intersection))])])].

Definition reference_feature (reference : Reference coord)
    : res (json coord) :=
  match ref_locationReferences reference with
  | [LR0; LR1] =>
      Ok (JObj [
        ("role", JStr "SharedStreets:Reference");
        ("id", JStr (truncate_id (ref_id reference)));
        ("geometryId", JStr (truncate_id (ref_geometryId reference)));
        ("formOfWay", JInt (ref_formOfWay reference));
        ("locationReferences", JList [
           JObj [
             ("sequence", JInt 0);
             ("intersectionId", JStr (truncate_id (LR_intersectionId LR0)));
             ("distanceToNextRef", JInt (LR_distanceToNextRef LR0));
             ("bearing", JInt (LR_inboundBearing LR0));
             ("outBearing", JInt (LR_outboundBearing LR0));
             ("point", JList [JFloat (round_coord (LR_lon LR0));
                              JFloat (round_coord (LR_lat LR0))])];
           JObj [
             ("sequence", JInt 1);
             ("intersectionId", JStr (truncate_id (LR_intersectionId LR1)));
             ("distanceToNextRef", JNull);
             ("bearing", JNull);
             ("outBearing", JNull);
             ("point", JList [JFloat (round_coord (LR_lon LR1));
                              JFloat (round_coord (LR_lat LR1))])]])])
  | _ => Raise ValueError   (* LR0, LR1 = ... : wrong number of values *)
  end.

Definition make_geojson (geometries : dict (Geometry coord))
    (intersections : dict (Intersection coord))
    (references : dict (Reference coord)) : res (json coord) :=
  gs <- comprehension geometry_feature (dict_values geometries) ;;
  let fs := map intersection_feature (dict_values intersections) in
  rs <- comprehension reference_feature (dict_values references) ;;
  Ok (JObj [
    ("type", JStr "FeatureCollection");
    ("features", JList (gs ++ fs)%list);
    ("references", JList rs)]).

(** [main], from the call of [get_tile] to the document handed to
    [json.dumps]. *)
Definition main (tile_sw tile_ne : Location coord)
    (geom_content inter_content ref_content : list byte)
    : res (json coord) :=
  ' (geometries, intersections, references) <-
      get_tile tile_sw tile_ne geom_content inter_content ref_content ;;
  make_geojson geometries intersections references.

End Tile.

(* ================================================================== *)
(** * Well-formed streams: what the tile server sends *)

(** The byte of value [n], for [n < 256]. *)
Definition byte_of_N (n : N) : byte :=
  match Byte.of_N n with
  | Some b => b
  | None => x00
  end.

(** The protobuf encoding of an unsigned varint: seven bits per byte, low
    bits first, the high bit set on every byte but the last.  [fuel] bounds
    the number of continuation bytes. *)
Fixpoint encode_varint_fuel (fuel : nat) (n : N) : list byte :=
  match fuel with
  | O => [byte_of_N (n mod 128)]
  | S fuel' =>
      if (n <? 128)%N then [byte_of_N n]
      else byte_of_N (128 + n mod 128) :: encode_varint_fuel fuel' (n / 128)
  end.

(** A varint has at most ten bytes. *)
Definition encode_varint (n : N) : list byte := encode_varint_fuel 9 n.

(** One message of the stream: its length as a varint, then its bytes. *)
Definition frame (message : list byte) : list byte :=
  encode_varint (N.of_nat (length message)) ++ message.

(** The body of a response: the frames of its messages, back to back. *)
Definition frames (messages : list (list byte)) : list byte :=
  concat (map frame messages).

(** A byte that announces a following byte of the same varint. *)
Definition continues (b : byte) : bool :=
  negb (N.eqb (N.land (Byte.to_N b) 128) 0).

(** A message of the stream and the object it stands for: the record class
    accepts it, and its length fits the 32 bits of the length prefix. *)
Definition decodes {A : Type} (ParseFromString : list byte -> option A)
    (message : list byte) (object : A) : Prop :=
  ParseFromString message = Some object /\
  (N.of_nat (length message) < 2 ^ 32)%N.

(** [iter_objects] resumed at [position]. *)
Definition iter_from {A : Type} (ParseFromString : list byte -> option A)
    (content : list byte) (position : nat) : gen A :=
  iter_loop ParseFromString (length content - position) content position.

(* ================================================================== *)
(** * Reference definitions used to state the properties *)

(** The items at the even places of a list: [l[0], l[2], ...]. *)
Fixpoint evens {A : Type} (l : list A) : list A :=
  match l with
  | [] => []
  | x :: l' => x :: match l' with
                    | [] => []
                    | _ :: l'' => evens l''
                    end
  end.

(** The items at the odd places: [l[1], l[3], ...]. *)
Definition odds {A : Type} (l : list A) : list A := evens (tl l).

Section Envelope.

Variable coord : Type.
Variable float_lt : coord -> coord -> bool.

(** [a <= b]: not [b < a]. *)
Definition float_le (a b : coord) : Prop := float_lt b a = false.

(** [x] is a longitude of the flattened sequence: it stands at an even
    index. *)
Definition is_lon (lonlats : list coord) (x : coord) : Prop :=
  exists k, nth_error lonlats (2 * k) = Some x.

(** [y] is a latitude of the flattened sequence: it stands at an odd
    index. *)
Definition is_lat (lonlats : list coord) (y : coord) : Prop :=
  exists k, nth_error lonlats (2 * k + 1) = Some y.

Definition greatest (P : coord -> Prop) (m : coord) : Prop :=
  P m /\ forall x, P x -> float_le x m.

Definition least (P : coord -> Prop) (m : coord) : Prop :=
  P m /\ forall x, P x -> float_le m x.

(** The envelope of a geometry: the least and greatest longitude and the
    least and greatest latitude of its points. *)
Record envelope : Type := {
  min_lon : coord;
  max_lon : coord;
  min_lat : coord;
  max_lat : coord
}.

Definition envelope_of (lonlats : list coord) (e : envelope) : Prop :=
  least (is_lon lonlats) (min_lon e) /\
  greatest (is_lon lonlats) (max_lon e) /\
  least (is_lat lonlats) (min_lat e) /\
  greatest (is_lat lonlats) (max_lat e).



End Envelope.

(* ================================================================== *)
(** * A concrete instance, to run the functions on explicit tiles *)

(** Coordinates are taken as integers with their usual order, [round] as the
    identity on them.  The record classes are read from a small
    tag-length-value layout in the manner of the protobuf wire format: every
    field is one tag byte, one length byte and that many bytes of payload;
    fields may come in any order, a field that is absent has its default
    value (so the empty message is accepted, as with any protobuf class),
    and a field cut short is rejected. *)
Module Concrete.

Definition coord : Type := Z.
Definition float_lt : coord -> coord -> bool := Z.ltb.
Definition py_round (x : coord) (ndigits : Z) : coord := x.

Fixpoint fields (fuel : nat) (bytes : list byte)
    : option (list (N * list byte)) :=
  match fuel, bytes with
  | _, [] => Some []
  | S fuel', tag :: len :: rest =>
      let n := N.to_nat (Byte.to_N len) in
      if n <=? length rest then
        option_map (cons (Byte.to_N tag, firstn n rest))
                   (fields fuel' (skipn n rest))
      else None
  | _, _ => None
  end.

(** The payloads of the fields of tag [tag], in order. *)
Definition all_of (tag : N) (fs : list (N * list byte)) : list (list byte) :=
  map snd (filter (fun f => N.eqb (fst f) tag) fs).

(** The payload of the last field of tag [tag], empty when absent. *)
Definition last_of (tag : N) (fs : list (N * list byte)) : list byte :=
  last (all_of tag fs) [].

Definition text (payload : list byte) : string :=
  string_of_list_byte payload.

(** A coordinate is one byte, offset by 128. *)
Definition number (b : byte) : Z := Z.of_N (Byte.to_N b) - 128.

Definition integer (payload : list byte) : Z :=
  match payload with
  | [] => 0
  | b :: _ => Z.of_N (Byte.to_N b)
  end.

Definition scalar (payload : list byte) : Z :=
  match payload with
  | [] => 0
  | b :: _ => number b
  end.

Definition ParseGeometry (bytes : list byte) : option (Geometry coord) :=
  match fields (length bytes) bytes with
  | None => None
  | Some fs =>
      Some {| geom_id := text (last_of 1 fs);
              geom_fromIntersectionId := text (last_of 2 fs);
              geom_toIntersectionId := text (last_of 3 fs);
              geom_forwardReferenceId := text (last_of 4 fs);
              geom_backReferenceId := text (last_of 5 fs);
              geom_roadClass := integer (last_of 6 fs);
              geom_lonlats := map number (last_of 7 fs) |}
  end.

Definition ParseIntersection (bytes : list byte)
    : option (Intersection coord) :=
  match fields (length bytes) bytes with
  | None => None
  | Some fs =>
      Some {| inter_id := text (last_of 1 fs);
              inter_lon := scalar (last_of 2 fs);
              inter_lat := scalar (last_of 3 fs);
              inter_inboundReferenceIds := map text (all_of 4 fs);
              inter_outboundReferenceIds := map text (all_of 5 fs) |}
  end.

Definition ParseLocationReference (bytes : list byte)
    : option (LocationReference coord) :=
  match fields (length bytes) bytes with
  | None => None
  | Some fs =>
      Some {| LR_intersectionId := text (last_of 1 fs);
              LR_lon := scalar (last_of 2 fs);
              LR_lat := scalar (last_of 3 fs);
              LR_distanceToNextRef := integer (last_of 4 fs);
              LR_inboundBearing := integer (last_of 5 fs);
              LR_outboundBearing := integer (last_of 6 fs) |}
  end.

Fixpoint all_some {A : Type} (l : list (option A)) : option (list A) :=
  match l with
  | [] => Some []
  | None :: _ => None
  | Some a :: l' => option_map (cons a) (all_some l')
  end.

Definition ParseReference (bytes : list byte) : option (Reference coord) :=
  match fields (length bytes) bytes with
  | None => None
  | Some fs =>
      match all_some (map ParseLocationReference (all_of 4 fs)) with
      | None => None
      | Some lrs =>
          Some {| ref_id := text (last_of 1 fs);
                  ref_geometryId := text (last_of 2 fs);
                  ref_formOfWay := integer (last_of 3 fs);
                  ref_locationReferences := lrs |}
      end
  end.

Definition is_inside := is_inside float_lt.
Definition get_tile :=
  get_tile float_lt ParseGeometry ParseIntersection ParseReference.
Definition main :=
  main float_lt py_round ParseGeometry ParseIntersection ParseReference.

(** Bytes of a text, and a field. *)
Definition bytes_of (s : string) : list byte := list_byte_of_string s.

Definition field (tag : N) (payload : list byte) : list byte :=
  byte_of_N tag :: byte_of_N (N.of_nat (length payload)) :: payload.

Definition coords (l : list Z) : list byte :=
  map (fun z => byte_of_N (Z.to_N (z + 128))) l.

Local Open Scope string_scope.
Local Open Scope list_scope.
Local Open Scope Z_scope.

(** A sample tile.  Geometry A lies in the box of corners (0, 0) and
    (10, 10), geometry B lies outside, geometry C has a coordinate sequence
    of odd length and geometry D a single point. *)
Definition corner_sw : Location coord := {| loc_lat := 0; loc_lon := 0 |}.
Definition corner_ne : Location coord := {| loc_lat := 10; loc_lon := 10 |}.

Definition geometry_of (id from to : string) (lonlats : list Z)
    : Geometry coord :=
  {| geom_id := id;
     geom_fromIntersectionId := from;
     geom_toIntersectionId := to;
     geom_forwardReferenceId := "";
     geom_backReferenceId := "";
     geom_roadClass := 0;
     geom_lonlats := lonlats |}.

Definition geometry_message (id from to : string) (lonlats : list Z)
    : list byte :=
  field 1 (bytes_of id) ++ field 2 (bytes_of from) ++ field 3 (bytes_of to)
  ++ field 7 (coords lonlats).

Definition geometry_A := geometry_of "A" "i1" "i2" [1; 2; 3; 4].
Definition geometry_B := geometry_of "B" "i2" "i3" [50; 60; 70; 80].
Definition geometry_C := geometry_of "C" "i1" "i4" [1; 2; 3].
Definition geometry_D := geometry_of "D" "i4" "i4" [5; 5].
Definition message_A := geometry_message "A" "i1" "i2" [1; 2; 3; 4].
Definition message_B := geometry_message "B" "i2" "i3" [50; 60; 70; 80].
Definition message_C := geometry_message "C" "i1" "i4" [1; 2; 3].
Definition message_D := geometry_message "D" "i4" "i4" [5; 5].

Definition intersection_message (id : string) (lon lat : Z) : list byte :=
  field 1 (bytes_of id) ++ field 2 (coords [lon]) ++ field 3 (coords [lat]).

Definition location_message (id : string) (lon lat : Z) : list byte :=
  field 1 (bytes_of id) ++ field 2 (coords [lon]) ++ field 3 (coords [lat]).

Definition reference_message (id geometryId : string)
    (locations : list (list byte)) : list byte :=
  field 1 (bytes_of id) ++ field 2 (bytes_of geometryId)
  ++ concat (map (field 4) locations).

(** The three layers of the sample tile. *)
Definition geometry_layer : list byte :=
  frames [message_A; message_B; message_C; message_D].

Definition intersection_layer : list byte :=
  frames [intersection_message "i1" 1 2;
          intersection_message "i3" 70 80;
          intersection_message "i9" 5 5].

Definition reference_layer : list byte :=
  frames [reference_message "r1" "A"
            [location_message "i1" 1 2; location_message "i2" 3 4];
          reference_message "r2" "B"
            [location_message "i2" 50 60; location_message "i3" 70 80];
          reference_message "r3" "C"
            [location_message "i1" 1 2; location_message "i4" 3 3]].

End Concrete.

(* ================================================================== *)
(** * Conditions of comprehensions as tests *)

(** [cond(a)] evaluates to [True]: the object is kept by
    [{... for a in g if cond(a)}]. *)
Definition kept {A : Type} (cond : A -> res bool) (a : A) : bool :=
  match cond a with
  | Ok true => true
  | _ => false
  end.

(** The values of a list of positions [[x, y]], one after the other. *)
Definition flatten_positions {A : Type} (positions : list (A * A)) : list A :=
  flat_map (fun xy => [fst xy; snd xy]) positions.

(* ================================================================== *)
(** * Properties of the varint decoder *)

Lemma bind_Ok : forall (A B : Type) (a : A) (k : A -> res B),
  bind (Ok a) k = k a.
Proof. reflexivity. Qed.

Lemma byte_high_bit : forall b : byte,
  N.eqb (N.land (Byte.to_N b) 128) 0 = (Byte.to_N b <? 128)%N.
Proof. destruct b; reflexivity. Qed.

Lemma byte_low_bits : forall b : byte,
  N.land (Byte.to_N b) 127 = (Byte.to_N b mod 128)%N.
Proof. intro b. change 127%N with (N.ones 7). now rewrite N.land_ones. Qed.

Lemma to_N_byte_of_N : forall n : N,
  (n < 256)%N -> Byte.to_N (byte_of_N n) = n.
Proof.
  intros n Hn. unfold byte_of_N.
  destruct (Byte.of_N n) as [b|] eqn:E.
  - now apply Byte.to_of_N.
  - apply Byte.of_N_None_iff in E. lia.
Qed.

Lemma split_low7 : forall n : N,
  N.lor (n mod 128) (N.shiftl (n / 128) 7) = n.
Proof.
  intro n. apply N.bits_inj. intro i.
  rewrite N.lor_spec. change 128%N with (2 ^ 7)%N.
  destruct (N.ltb_spec i 7) as [Hi|Hi].
  - rewrite N.mod_pow2_bits_low, N.shiftl_spec_low by assumption.
    apply orb_false_r.
  - rewrite N.mod_pow2_bits_high, N.shiftl_spec_high' by assumption.
    rewrite N.div_pow2_bits. simpl. f_equal. lia.
Qed.

(** The position only counts the bytes read: it goes up by at least one. *)
Lemma DecodeVarint_loop_position : forall mask bytes pos result shift v pos',
  DecodeVarint_loop mask bytes pos result shift = Ok (v, pos') ->
  pos < pos' /\ pos' <= pos + length bytes.
Proof.
  induction bytes as [|b bytes IH]; simpl; intros pos result shift v pos' H.
  - discriminate.
  - destruct (N.eqb (N.land (Byte.to_N b) 128) 0).
    + inversion H; subst. lia.
    + destruct (64 <=? shift + 7)%N; [discriminate|].
      apply IH in H. lia.
Qed.

Lemma DecodeVarint32_position : forall buffer pos v pos',
  DecodeVarint32 buffer pos = Ok (v, pos') ->
  pos < pos' /\ pos' <= Nat.max pos (length buffer).
Proof.
  unfold DecodeVarint32. intros buffer pos v pos' H.
  apply DecodeVarint_loop_position in H. rewrite length_skipn in H. lia.
Qed.

(** Decoding reads back what [encode_varint_fuel] wrote, whatever follows. *)
Lemma DecodeVarint_loop_encode : forall mask fuel n rest pos result shift,
  (n < 128 ^ N.of_nat (S fuel))%N ->
  (shift + 7 * N.of_nat fuel < 64)%N ->
  DecodeVarint_loop mask (encode_varint_fuel fuel n ++ rest) pos result shift
  = Ok (N.land (N.lor result (N.shiftl n shift)) mask,
        pos + length (encode_varint_fuel fuel n)).
Proof.
  induction fuel as [|fuel IH]; intros n rest pos result shift Hn Hs.
  - change (128 ^ N.of_nat 1)%N with 128%N in Hn.
    cbn [encode_varint_fuel app DecodeVarint_loop length].
    rewrite N.mod_small by assumption.
    rewrite byte_high_bit, byte_low_bits, to_N_byte_of_N by lia.
    rewrite N.mod_small by assumption.
    destruct (N.ltb_spec n 128); [|lia].
    do 2 f_equal. lia.
  - cbn [encode_varint_fuel].
    destruct (N.ltb_spec n 128) as [Hlt|Hge].
    + cbn [app DecodeVarint_loop length].
      rewrite byte_high_bit, byte_low_bits, to_N_byte_of_N by lia.
      rewrite N.mod_small by assumption.
      destruct (N.ltb_spec n 128); [|lia].
      do 2 f_equal. lia.
    + cbn [app DecodeVarint_loop length].
      assert (Hr : (n mod 128 < 128)%N) by (apply N.mod_lt; lia).
      remember (n mod 128)%N as r eqn:Er.
      rewrite byte_high_bit, byte_low_bits, to_N_byte_of_N
        by (clear - Hr; lia).
      destruct (N.ltb_spec (128 + r) 128); [clear - Hr H; lia|].
      replace ((128 + r) mod 128)%N with r
        by (rewrite N.Div0.add_mod, N.Div0.mod_same, N.add_0_l, N.Div0.mod_mod;
            symmetry; now apply N.mod_small).
      destruct (N.leb_spec 64 (shift + 7)); [lia|].
      rewrite IH.
      * f_equal. f_equal; [|lia]. f_equal.
        rewrite <- N.lor_assoc. f_equal.
        replace (shift + 7)%N with (7 + shift)%N by lia.
        rewrite <- N.shiftl_shiftl, <- N.shiftl_lor.
        subst r. now rewrite split_low7.
      * apply N.Div0.div_lt_upper_bound.
        replace (N.of_nat (S (S fuel))) with (N.succ (N.of_nat (S fuel))) in Hn
          by lia.
        now rewrite N.pow_succ_r' in Hn.
      * lia.
Qed.

Lemma encode_varint_nonempty : forall fuel n,
  0 < length (encode_varint_fuel fuel n).
Proof.
  destruct fuel; intro n; simpl; [lia|].
  destruct (n <? 128)%N; simpl; lia.
Qed.

(** A length below 2^32 written by [encode_varint] at the end of [pre] is
    read back by [_DecodeVarint32], with the position just after it. *)
Lemma DecodeVarint32_encode : forall pre n rest,
  (n < 2 ^ 32)%N ->
  DecodeVarint32 (pre ++ encode_varint n ++ rest) (length pre)
  = Ok (n, length pre + length (encode_varint n)).
Proof.
  intros pre n rest Hn. unfold DecodeVarint32, encode_varint.
  rewrite skipn_app, skipn_all, Nat.sub_diag, skipn_O, app_nil_l.
  rewrite DecodeVarint_loop_encode.
  - rewrite N.shiftl_0_r, N.lor_0_l, N.land_ones, N.mod_small by assumption.
    reflexivity.
  - eapply N.lt_trans; [exact Hn|]. reflexivity.
  - reflexivity.
Qed.

(** A varint whose bytes all announce a next byte, up to the end of the
    buffer, cannot be read: the index runs past the end, or, from the tenth
    byte on, the varint is too long. *)
Lemma DecodeVarint_loop_unfinished : forall mask bytes pos result shift,
  forallb continues bytes = true ->
  exists e, DecodeVarint_loop mask bytes pos result shift = Raise e
            /\ ((shift + 7 * N.of_nat (length bytes) < 64)%N -> e = IndexError).
Proof.
  induction bytes as [|b bytes IH]; intros pos result shift Hc.
  - exists IndexError. split; reflexivity.
  - cbn [forallb] in Hc. apply andb_true_iff in Hc as [Hb Hc].
    unfold continues in Hb. apply negb_true_iff in Hb.
    cbn [DecodeVarint_loop]. rewrite Hb.
    destruct (N.leb_spec 64 (shift + 7)) as [Hs|Hs].
    + exists DecodeError. split; [reflexivity|].
      cbn [length]. lia.
    + destruct (IH (S pos)
                  (N.lor result (N.shiftl (N.land (Byte.to_N b) 127) shift))
                  (shift + 7)%N Hc) as [e [He Hi]].
      exists e. split; [exact He|].
      intro H. apply Hi. cbn [length] in H. lia.
Qed.

(* ================================================================== *)
(** * Properties of [iter_objects] *)

Section IterObjectsProperties.

Variable A : Type.
Variable ParseFromString : list byte -> option A.

Local Abbreviation loop := (iter_loop ParseFromString).
Local Abbreviation from := (iter_from ParseFromString).
Local Abbreviation objects_of := (iter_objects ParseFromString).

(** The loop does not depend on its fuel once there is one unit of it for
    every byte left. *)
Lemma iter_loop_fuel_eq : forall fuel1 fuel2 content position,
  length content - position <= fuel1 ->
  length content - position <= fuel2 ->
  loop fuel1 content position = loop fuel2 content position.
Proof.
  induction fuel1 as [|fuel1 IH]; intros fuel2 content position H1 H2.
  - destruct fuel2 as [|fuel2]; [reflexivity|].
    cbn [iter_loop].
    destruct (Nat.ltb_spec position (length content)); [lia|reflexivity].
  - destruct fuel2 as [|fuel2].
    + cbn [iter_loop].
      destruct (Nat.ltb_spec position (length content)); [lia|reflexivity].
    + cbn [iter_loop].
      destruct (Nat.ltb_spec position (length content)); [|reflexivity].
      destruct (DecodeVarint32 content position) as [[len new]|e] eqn:E;
        [|reflexivity].
      apply DecodeVarint32_position in E.
      destruct (ParseFromString _); [|reflexivity].
      f_equal. apply IH; lia.
Qed.

Lemma iter_loop_fuel : forall fuel content position,
  length content - position <= fuel ->
  loop fuel content position = from content position.
Proof.
  intros. unfold iter_from. apply iter_loop_fuel_eq; lia.
Qed.

Lemma iter_objects_from : forall content,
  objects_of content = from content 0.
Proof.
  intro content. unfold iter_objects, iter_from.
  now rewrite Nat.sub_0_r.
Qed.

(** One turn of the loop. *)
Lemma iter_from_eq : forall content position,
  from content position =
  if position <? length content then
    match DecodeVarint32 content position with
    | Raise e => GRaise e
    | Ok (message_length, new_position) =>
        match ParseFromString
                (slice content new_position
                   (new_position + N.to_nat message_length)) with
        | None => GRaise DecodeError
        | Some object =>
            GYield object
              (from content (new_position + N.to_nat message_length))
        end
    end
  else GStop.
Proof.
  intros content position. unfold iter_from at 1.
  destruct (Nat.ltb_spec position (length content)) as [Hlt|Hge].
  - destruct (length content - position) as [|fuel] eqn:Ef; [lia|].
    cbn [iter_loop].
    destruct (Nat.ltb_spec position (length content)); [|lia].
    destruct (DecodeVarint32 content position) as [[len new]|e] eqn:E;
      [|reflexivity].
    apply DecodeVarint32_position in E.
    destruct (ParseFromString _); [|reflexivity].
    f_equal. apply iter_loop_fuel. lia.
  - replace (length content - position) with 0 by lia. reflexivity.
Qed.

Lemma iter_from_end : forall content position,
  length content <= position -> from content position = GStop.
Proof.
  intros content position H. rewrite iter_from_eq.
  destruct (Nat.ltb_spec position (length content)); [lia|reflexivity].
Qed.

Lemma slice_middle : forall (pre body rest : list byte),
  slice (pre ++ body ++ rest) (length pre) (length pre + length body) = body.
Proof.
  intros. unfold slice.
  rewrite skipn_app, skipn_all, Nat.sub_diag, skipn_O, app_nil_l.
  replace (length pre + length body - length pre) with (length body) by lia.
  rewrite firstn_app, firstn_all, Nat.sub_diag, firstn_O. apply app_nil_r.
Qed.

(** A slice that asks for more than what is left gives what is left. *)
Lemma slice_short : forall (pre body : list byte) n,
  length body <= n ->
  slice (pre ++ body) (length pre) (length pre + n) = body.
Proof.
  intros. unfold slice.
  rewrite skipn_app, skipn_all, Nat.sub_diag, skipn_O, app_nil_l.
  apply firstn_all2. lia.
Qed.

(** At the start of a frame, the loop yields the object of its message and
    goes on just after the frame. *)
Lemma iter_from_frame : forall pre message object rest,
  decodes ParseFromString message object ->
  from (pre ++ frame message ++ rest) (length pre) =
  GYield object
    (from (pre ++ frame message ++ rest)
       (length pre + length (frame message))).
Proof.
  intros pre message object rest [Hp Hn].
  rewrite iter_from_eq.
  assert (Hlen : 0 < length (frame message)).
  { unfold frame. rewrite length_app.
    pose proof (encode_varint_nonempty 9 (N.of_nat (length message))).
    unfold encode_varint. lia. }
  destruct (Nat.ltb_spec (length pre)
              (length (pre ++ frame message ++ rest))) as [_|H];
    [|rewrite !length_app in H; lia].
  replace (pre ++ frame message ++ rest)
    with (pre ++ encode_varint (N.of_nat (length message))
              ++ message ++ rest)
    by (unfold frame; now rewrite <- app_assoc).
  rewrite DecodeVarint32_encode by assumption.
  rewrite Nat2N.id.
  rewrite (app_assoc pre (encode_varint _)) at 1.
  rewrite <- (length_app pre).
  rewrite slice_middle, Hp.
  f_equal. f_equal.
  unfold frame. rewrite !length_app. lia.
Qed.

Lemma iter_from_frames : forall messages objects,
  Forall2 (decodes ParseFromString) messages objects ->
  forall pre rest,
  from (pre ++ frames messages ++ rest) (length pre) =
  yields objects
    (from (pre ++ frames messages ++ rest)
       (length pre + length (frames messages))).
Proof.
  induction 1 as [|message object messages objects Hd _ IH];
    intros pre rest.
  - cbn [frames map concat yields length app]. now rewrite Nat.add_0_r.
  - unfold frames. cbn [map concat yields]. fold (frames messages).
    rewrite <- app_assoc.
    rewrite (iter_from_frame pre (frames messages ++ rest) Hd).
    f_equal.
    specialize (IH (pre ++ frame message) rest).
    rewrite <- !app_assoc, length_app in IH.
    rewrite IH. f_equal. f_equal. rewrite length_app. lia.
Qed.

(** A stream of frames followed by anything: the objects of the frames
    come first, then whatever the loop does at the start of what
    follows. *)
Lemma iter_objects_prefix : forall messages objects tail,
  Forall2 (decodes ParseFromString) messages objects ->
  objects_of (frames messages ++ tail) =
  yields objects
    (from (frames messages ++ tail) (length (frames messages))).
Proof.
  intros messages objects tail H.
  rewrite iter_objects_from.
  exact (iter_from_frames H [] tail).
Qed.

End IterObjectsProperties.

Lemma yielded_yields_stop : forall (A : Type) (l : list A),
  yielded (yields l GStop) = l.
Proof. induction l as [|a l IH]; simpl; [reflexivity|now rewrite IH]. Qed.

(** C2.  A buffer that is the concatenation of N valid varint-length-prefixed
    messages makes [iter_objects] yield exactly the N decoded records, in the
    order of the buffer, and then stop without an error.  A message is valid
    when the record class decodes it and its length fits the 32-bit length
    prefix that [_DecodeVarint32] reads. *)
Theorem iter_objects_frames :
  forall (A : Type) (ParseFromString : list byte -> option A)
         (messages : list (list byte)) (objects : list A),
  Forall2 (decodes ParseFromString) messages objects ->
  iter_objects ParseFromString (frames messages) = yields objects GStop /\
  yielded (iter_objects ParseFromString (frames messages)) = objects /\
  raised (iter_objects ParseFromString (frames messages)) = None /\
  length (yielded (iter_objects ParseFromString (frames messages)))
  = length messages.
Proof.
  intros A ParseFromString messages objects H.
  assert (E : iter_objects ParseFromString (frames messages)
              = yields objects GStop).
  { rewrite <- (app_nil_r (frames messages)).
    rewrite (iter_objects_prefix [] H).
    rewrite iter_from_end; [reflexivity|].
    rewrite app_nil_r. lia. }
  rewrite E, yielded_yields_stop.
  repeat split.
  - clear. induction objects; simpl; auto.
  - symmetry. eapply Forall2_length; eassumption.
Qed.

(** C3 (as the code has it).  After any number of valid frames:
    - a length prefix that runs past the end of the buffer (every byte left
      announces a next one) makes [iter_objects] raise at that point, after
      the records of the frames before it: [IndexError] from the read past
      the end when fewer than ten bytes are left;
    - a body that runs past the end of the buffer is not detected by
      [iter_objects]: the slice is cut at the end of the buffer, the record
      class is given the bytes that are left, and [iter_objects] raises only
      if the record class rejects them; otherwise that record is yielded as
      the last one and the generator stops normally. *)
Theorem iter_objects_truncated :
  forall (A : Type) (ParseFromString : list byte -> option A)
         (messages : list (list byte)) (objects : list A),
  Forall2 (decodes ParseFromString) messages objects ->
  (forall tail : list byte,
     tail <> [] -> forallb continues tail = true ->
     exists e,
       iter_objects ParseFromString (frames messages ++ tail)
       = yields objects (GRaise e) /\
       (length tail < 10 -> e = IndexError)) /\
  (forall (n : N) (body : list byte),
     (N.of_nat (length body) < n)%N -> (n < 2 ^ 32)%N ->
     iter_objects ParseFromString (frames messages ++ encode_varint n ++ body)
     = yields objects
         match ParseFromString body with
         | Some object => GYield object GStop
         | None => GRaise DecodeError
         end).
Proof.
  intros A ParseFromString messages objects H. split.
  - intros tail Hne Hc.
    rewrite (iter_objects_prefix tail H), iter_from_eq.
    destruct (Nat.ltb_spec (length (frames messages))
                (length (frames messages ++ tail))) as [_|Hl].
    2:{ rewrite length_app in Hl. destruct tail; [congruence|simpl in Hl; lia]. }
    unfold DecodeVarint32.
    rewrite skipn_app, skipn_all, Nat.sub_diag, skipn_O, app_nil_l.
    destruct (DecodeVarint_loop_unfinished (N.ones 32) tail
                (length (frames messages)) 0 0 Hc) as [e [He Hi]].
    rewrite He. exists e. split; [reflexivity|].
    intro Hlen. apply Hi. lia.
  - intros n body Hb Hn.
    rewrite (iter_objects_prefix (encode_varint n ++ body) H), iter_from_eq.
    pose proof (encode_varint_nonempty 9 n) as Hpos. fold (encode_varint n) in Hpos.
    destruct (Nat.ltb_spec (length (frames messages))
                (length (frames messages ++ encode_varint n ++ body)))
      as [_|Hl]; [|rewrite !length_app in Hl; lia].
    rewrite DecodeVarint32_encode by assumption.
    rewrite (app_assoc (frames messages) (encode_varint n)) at 1.
    rewrite <- (length_app (frames messages)).
    rewrite slice_short by lia.
    destruct (ParseFromString body); [|reflexivity].
    rewrite iter_from_end; [reflexivity|].
    rewrite !length_app. lia.
Qed.

Lemma iter_objects_frames_witness :
  Forall2 (decodes Concrete.ParseGeometry)
    [Concrete.message_A; Concrete.message_B]
    [Concrete.geometry_A; Concrete.geometry_B] /\
  iter_objects Concrete.ParseGeometry
    (frames [Concrete.message_A; Concrete.message_B])
  = GYield Concrete.geometry_A (GYield Concrete.geometry_B GStop).
Proof.
  assert (H : Forall2 (decodes Concrete.ParseGeometry)
                [Concrete.message_A; Concrete.message_B]
                [Concrete.geometry_A; Concrete.geometry_B]).
  { repeat constructor; vm_compute; reflexivity. }
  split; [exact H|].
  exact (proj1 (iter_objects_frames H)).
Defined.

(** C3, as stated, fails: a frame that announces eight bytes of body when
    only three are left, cut at the boundary of a field, is decoded without
    any error; the generator yields a record with the fields that are left
    and stops normally. *)
Lemma iter_objects_cut_body_not_detected :
  let content :=
    frame Concrete.message_A ++ [x08] ++ Concrete.field 1 [x42] in
  let position := length (frame Concrete.message_A) in
  DecodeVarint32 content position = Ok (8%N, position + 1) /\
  length content < position + 1 + 8 /\
  iter_objects Concrete.ParseGeometry content
  = GYield Concrete.geometry_A
      (GYield (Concrete.geometry_of "B" "" "" []) GStop) /\
  raised (iter_objects Concrete.ParseGeometry content) = None.
Proof.
  vm_compute. repeat split. lia.
Qed.

Lemma iter_objects_truncated_witness :
  Forall2 (decodes Concrete.ParseGeometry)
    [Concrete.message_A] [Concrete.geometry_A] /\
  (exists e,
     iter_objects Concrete.ParseGeometry
       (frames [Concrete.message_A] ++ [x80; x81])
     = GYield Concrete.geometry_A (GRaise e)) /\
  iter_objects Concrete.ParseGeometry
    (frames [Concrete.message_A] ++ encode_varint 8 ++ [x01; x05; x42])
  = GYield Concrete.geometry_A (GRaise DecodeError).
Proof.
  assert (H : Forall2 (decodes Concrete.ParseGeometry)
                [Concrete.message_A] [Concrete.geometry_A]).
  { repeat constructor; vm_compute; reflexivity. }
  split; [exact H|]. split.
  - destruct (proj1 (iter_objects_truncated H) [x80; x81])
      as [e [He _]]; [discriminate|reflexivity|].
    exists e. exact He.
  - refine (proj2 (iter_objects_truncated H) 8%N [x01; x05; x42] _ _);
      vm_compute; reflexivity.
Defined.

(* ================================================================== *)
(** * Properties of [truncate_id] *)

Lemma substring_0_prefix : forall n s, prefix (substring 0 n s) s = true.
Proof.
  induction n as [|n IH]; intros [|c s]; simpl; try reflexivity.
  destruct (ascii_dec c c) as [_|Hc]; [apply IH|congruence].
Qed.

Lemma substring_0_length : forall n s,
  String.length (substring 0 n s) = Nat.min n (String.length s).
Proof.
  induction n as [|n IH]; intros [|c s]; simpl; try reflexivity.
  now rewrite IH.
Qed.

Lemma substring_0_append : forall n s,
  exists rest, s = String.append (substring 0 n s) rest.
Proof.
  induction n as [|n IH]; intros [|c s]; simpl.
  - now exists EmptyString.
  - now exists (String c s).
  - now exists EmptyString.
  - destruct (IH s) as [rest E]. exists rest. now rewrite <- E.
Qed.

(** C7.  [truncate_id id] is a prefix of [id], of length
    [min 12 (len id)]. *)
Theorem truncate_id_prefix : forall id : string,
  prefix (truncate_id id) id = true /\
  (exists rest, id = String.append (truncate_id id) rest) /\
  String.length (truncate_id id) = Nat.min 12 (String.length id).
Proof.
  intro id. unfold truncate_id. split; [|split].
  - apply substring_0_prefix.
  - apply substring_0_append.
  - apply substring_0_length.
Qed.

(* ================================================================== *)
(** * Comprehensions over every second index *)

Lemma list_ind2 : forall (A : Type) (P : list A -> Prop),
  P [] -> (forall x, P [x]) -> (forall x y l, P l -> P (x :: y :: l)) ->
  forall l, P l.
Proof.
  intros A P H0 H1 H2.
  assert (H : forall l, P l /\ forall x, P (x :: l)).
  { induction l as [|a l [IHl IHx]]; split; auto. }
  intro l. apply H.
Qed.

Lemma comprehension_ext : forall (A B : Type) (f g : A -> res B) l,
  (forall a, In a l -> f a = g a) -> comprehension f l = comprehension g l.
Proof.
  induction l as [|a l IH]; intro H; simpl; [reflexivity|].
  rewrite (H a) by now left.
  rewrite IH; [reflexivity|]. intros; apply H; now right.
Qed.

Lemma comprehension_map : forall (A B C : Type) (f : B -> res C) (g : A -> B) l,
  comprehension f (map g l) = comprehension (fun a => f (g a)) l.
Proof.
  induction l as [|a l IH]; simpl; [reflexivity|]. now rewrite IH.
Qed.

Lemma py_range_0 : forall n,
  py_range 0 n 2 = map (fun k => 2 * k) (seq 0 ((n + 1) / 2)).
Proof. intro n. unfold py_range. now rewrite Nat.sub_0_r. Qed.

Lemma py_range_1 : forall n,
  py_range 1 (S n) 2 = map (fun k => S (2 * k)) (seq 0 ((n + 1) / 2)).
Proof.
  intro n. unfold py_range.
  replace (S n - 1 + (2 - 1)) with (n + 1) by lia. reflexivity.
Qed.

Lemma getitem_skip2 : forall (A : Type) (x y : A) l k,
  getitem (x :: y :: l) (2 * S k) = getitem l (2 * k).
Proof.
  intros. replace (2 * S k) with (S (S (2 * k))) by lia. reflexivity.
Qed.

(** The items at the indices [0, 2, 4, ...] below [len(l)], each through
    [h]: no index is out of range. *)
Lemma comprehension_evens : forall (A B : Type) (h : A -> B) (l : list A),
  comprehension (fun k => v <- getitem l (2 * k) ;; Ok (h v))
    (seq 0 ((length l + 1) / 2))
  = Ok (map h (evens l)).
Proof.
  intros A B h. induction l as [| x | x y l IH] using list_ind2.
  - reflexivity.
  - reflexivity.
  - replace ((length (x :: y :: l) + 1) / 2) with (S ((length l + 1) / 2)).
    2:{ cbn [length].
        replace (S (S (length l)) + 1) with (length l + 1 + 1 * 2) by lia.
        rewrite Nat.div_add by lia. lia. }
    rewrite <- cons_seq, <- seq_shift.
    cbn [comprehension]. rewrite comprehension_map.
    rewrite (comprehension_ext
               (fun a => v <- getitem (x :: y :: l) (2 * S a) ;; Ok (h v))
               (fun k => v <- getitem l (2 * k) ;; Ok (h v))).
    + rewrite IH. reflexivity.
    + intros a _. now rewrite getitem_skip2.
Qed.

Lemma comprehension_range_0 : forall (A B : Type) (h : A -> B) (l : list A),
  comprehension (fun i => v <- getitem l i ;; Ok (h v))
    (py_range 0 (length l) 2)
  = Ok (map h (evens l)).
Proof.
  intros. rewrite py_range_0, comprehension_map. apply comprehension_evens.
Qed.

Lemma comprehension_range_1 : forall (A B : Type) (h : A -> B) (l : list A),
  comprehension (fun i => v <- getitem l i ;; Ok (h v))
    (py_range 1 (length l) 2)
  = Ok (map h (odds l)).
Proof.
  intros A B h [|x l]; [reflexivity|].
  cbn [length]. rewrite py_range_1, comprehension_map.
  unfold odds. cbn [tl]. rewrite <- comprehension_evens.
  apply comprehension_ext. intros k _. reflexivity.
Qed.

Lemma getitem_bind_id : forall (A : Type) (l : list A) i,
  getitem l i = (v <- getitem l i ;; Ok v).
Proof. intros. destruct (getitem l i); reflexivity. Qed.

Lemma every_second_0 : forall (coord : Type) (lonlats : list coord),
  every_second 0 lonlats = Ok (evens lonlats).
Proof.
  intros. unfold every_second.
  rewrite (comprehension_ext _ _ _
             (fun i _ => getitem_bind_id lonlats i)).
  rewrite (comprehension_range_0 (fun v => v)). now rewrite map_id.
Qed.

Lemma every_second_1 : forall (coord : Type) (lonlats : list coord),
  every_second 1 lonlats = Ok (odds lonlats).
Proof.
  intros. unfold every_second.
  rewrite (comprehension_ext _ _ _
             (fun i _ => getitem_bind_id lonlats i)).
  rewrite (comprehension_range_1 (fun v => v)). now rewrite map_id.
Qed.

Lemma nth_error_evens : forall (A : Type) (l : list A) k,
  nth_error (evens l) k = nth_error l (2 * k).
Proof.
  intros A. induction l as [| x | x y l IH] using list_ind2; intro k.
  - now destruct k.
  - destruct k as [|k]; [reflexivity|].
    replace (2 * S k) with (S (S (2 * k))) by lia.
    cbn [evens nth_error]. now rewrite !nth_error_nil.
  - destruct k as [|k]; [reflexivity|].
    replace (2 * S k) with (S (S (2 * k))) by lia.
    cbn [evens nth_error]. apply IH.
Qed.

Lemma nth_error_odds : forall (A : Type) (l : list A) k,
  nth_error (odds l) k = nth_error l (2 * k + 1).
Proof.
  intros A [|x l] k.
  - unfold odds. cbn [tl evens]. now rewrite !nth_error_nil.
  - unfold odds. cbn [tl]. rewrite nth_error_evens.
    replace (2 * k + 1) with (S (2 * k)) by lia. reflexivity.
Qed.

Lemma is_lon_evens : forall (coord : Type) (l : list coord) x,
  is_lon l x <-> In x (evens l).
Proof.
  intros. unfold is_lon. split.
  - intros [k Hk]. rewrite <- nth_error_evens in Hk.
    eapply nth_error_In; eassumption.
  - intro H. apply In_nth_error in H as [k Hk]. exists k.
    now rewrite <- nth_error_evens.
Qed.

Lemma is_lat_odds : forall (coord : Type) (l : list coord) y,
  is_lat l y <-> In y (odds l).
Proof.
  intros. unfold is_lat. split.
  - intros [k Hk]. rewrite <- nth_error_odds in Hk.
    eapply nth_error_In; eassumption.
  - intro H. apply In_nth_error in H as [k Hk]. exists k.
    now rewrite <- nth_error_odds.
Qed.

(* ================================================================== *)
(** * Properties of [is_inside] *)

Unset Implicit Arguments.

Section IsInsideProperties.

Variable coord : Type.
Variable float_lt : coord -> coord -> bool.

Local Abbreviation le := (float_le float_lt).

(** [is_inside] with the two comprehensions evaluated. *)
Lemma is_inside_eq : forall (southwest northeast : Location coord) geometry,
  is_inside float_lt southwest northeast geometry =
  (c <- py_or (m <- py_max float_lt (evens (geom_lonlats geometry)) ;;
               Ok (float_lt m (loc_lon southwest)))
              (m <- py_min float_lt (evens (geom_lonlats geometry)) ;;
               Ok (float_lt (loc_lon northeast) m)) ;;
   if c then Ok false
   else
     c <- py_or (m <- py_max float_lt (odds (geom_lonlats geometry)) ;;
                 Ok (float_lt m (loc_lat southwest)))
                (m <- py_min float_lt (odds (geom_lonlats geometry)) ;;
                 Ok (float_lt (loc_lat northeast) m)) ;;
     if c then Ok false else Ok true).
Proof.
  intros. unfold is_inside.
  now rewrite every_second_0, every_second_1.
Qed.


Lemma is_inside_two_values :
  forall (southwest northeast : Location coord) geometry,
  2 <= length (geom_lonlats geometry) ->
  exists b, is_inside float_lt southwest northeast geometry = Ok b.
Proof.
  intros * H. rewrite is_inside_eq.
  destruct (geom_lonlats geometry) as [|x [|y l]];
    cbn [length] in H; try lia.
  unfold odds. cbn [tl evens py_max py_min py_or bind].
  repeat (match goal with
          | |- context [if float_lt ?a ?b then _ else _] =>
              destruct (float_lt a b)
          end; cbn [bind]);
    eexists; reflexivity.
Qed.

(** C10 (as the code has it).  [is_inside] raises on an empty coordinate
    sequence ([max] of an empty list).  On a sequence of one value it
    returns [False] when that longitude is out of the longitude range of
    the box and raises otherwise, the list of latitudes being empty.  On a
    sequence of two values or more it never raises: it returns a
    boolean. *)
Theorem is_inside_defined :
  forall (southwest northeast : Location coord) (geometry : Geometry coord),
  match geom_lonlats geometry with
  | [] => is_inside float_lt southwest northeast geometry = Raise ValueError
  | [x] =>
      is_inside float_lt southwest northeast geometry =
      if float_lt x (loc_lon southwest) || float_lt (loc_lon northeast) x
      then Ok false
      else Raise ValueError
  | _ :: _ :: _ =>
      exists b, is_inside float_lt southwest northeast geometry = Ok b
  end.
Proof.
  intros southwest northeast geometry. rewrite is_inside_eq.
  destruct (geom_lonlats geometry) as [|x [|y l]].
  - reflexivity.
  - cbn. destruct (float_lt x (loc_lon southwest)); cbn; [reflexivity|].
    destruct (float_lt (loc_lon northeast) x); reflexivity.
  - unfold odds. cbn [tl evens py_max py_min py_or bind].
    repeat (match goal with
            | |- context [if float_lt ?a ?b then _ else _] =>
                destruct (float_lt a b)
            end; cbn [bind]);
      eexists; reflexivity.
Qed.

(** From here on the order of the floats is a strict weak order: no value
    is below itself or below one that is below it, and a value that is not
    comparable with two others leaves them not comparable.  This is the
    order of the IEEE floats without NaN (0.0 and -0.0 are two values of
    the same rank). *)
Hypothesis float_lt_asym : forall a b,
  float_lt a b = true -> float_lt b a = false.
Hypothesis float_lt_negtrans : forall a b c,
  float_lt a c = true -> float_lt a b = true \/ float_lt b c = true.

Lemma float_le_refl : forall a, le a a.
Proof.
  intro a. unfold float_le.
  destruct (float_lt a a) eqn:E; [|reflexivity].
  now rewrite (float_lt_asym _ _ E) in E.
Qed.

Lemma float_le_trans : forall a b c, le a b -> le b c -> le a c.
Proof.
  unfold float_le. intros a b c Hab Hbc.
  destruct (float_lt c a) eqn:E; [|reflexivity].
  destruct (float_lt_negtrans _ b _ E); congruence.
Qed.

Lemma float_lt_le : forall a b, float_lt a b = true -> le a b.
Proof. intros a b H. now apply float_lt_asym. Qed.

(** Two values of the same rank compare alike with any third. *)
Lemma float_lt_same_l : forall a b c,
  le a b -> le b a -> float_lt a c = float_lt b c.
Proof.
  unfold float_le. intros a b c Hab Hba.
  destruct (float_lt a c) eqn:E1, (float_lt b c) eqn:E2; try reflexivity.
  - destruct (float_lt_negtrans _ b _ E1); congruence.
  - destruct (float_lt_negtrans _ a _ E2); congruence.
Qed.

Lemma float_lt_same_r : forall a b c,
  le a b -> le b a -> float_lt c a = float_lt c b.
Proof.
  unfold float_le. intros a b c Hab Hba.
  destruct (float_lt c a) eqn:E1, (float_lt c b) eqn:E2; try reflexivity.
  - destruct (float_lt_negtrans _ b _ E1); congruence.
  - destruct (float_lt_negtrans _ a _ E2); congruence.
Qed.

Lemma fold_max_spec : forall l x,
  In (fold_left (fun m item => if float_lt m item then item else m) l x)
     (x :: l) /\
  forall y, In y (x :: l) ->
    le y (fold_left (fun m item => if float_lt m item then item else m) l x).
Proof.
  induction l as [|a l IH]; intro x; cbn [fold_left].
  - split; [now left|]. intros y [->|[]]. apply float_le_refl.
  - destruct (IH (if float_lt x a then a else x)) as [Hin Hle].
    split.
    + destruct Hin as [Hin|Hin]; [|now right; right].
      rewrite <- Hin. destruct (float_lt x a); [right|]; now left.
    + assert (Hx : le x (if float_lt x a then a else x)).
      { destruct (float_lt x a) eqn:E;
          [now apply float_lt_le|apply float_le_refl]. }
      assert (Ha : le a (if float_lt x a then a else x)).
      { destruct (float_lt x a) eqn:E; [apply float_le_refl|exact E]. }
      intros y [->|[->|Hy]].
      * eapply float_le_trans; [exact Hx|]. apply Hle. now left.
      * eapply float_le_trans; [exact Ha|]. apply Hle. now left.
      * apply Hle. now right.
Qed.

Lemma fold_min_spec : forall l x,
  In (fold_left (fun m item => if float_lt item m then item else m) l x)
     (x :: l) /\
  forall y, In y (x :: l) ->
    le (fold_left (fun m item => if float_lt item m then item else m) l x) y.
Proof.
  induction l as [|a l IH]; intro x; cbn [fold_left].
  - split; [now left|]. intros y [->|[]]. apply float_le_refl.
  - destruct (IH (if float_lt a x then a else x)) as [Hin Hle].
    split.
    + destruct Hin as [Hin|Hin]; [|now right; right].
      rewrite <- Hin. destruct (float_lt a x); [right|]; now left.
    + assert (Hx : le (if float_lt a x then a else x) x).
      { destruct (float_lt a x) eqn:E;
          [now apply float_lt_le|apply float_le_refl]. }
      assert (Ha : le (if float_lt a x then a else x) a).
      { destruct (float_lt a x) eqn:E; [apply float_le_refl|exact E]. }
      intros y [->|[->|Hy]].
      * eapply float_le_trans; [|exact Hx]. apply Hle. now left.
      * eapply float_le_trans; [|exact Ha]. apply Hle. now left.
      * apply Hle. now right.
Qed.

(** [max] and [min] of a sequence that has a greatest and a least item
    return items of their rank. *)
Lemma py_max_greatest : forall l hi,
  greatest float_lt (fun x => In x l) hi ->
  exists m, py_max float_lt l = Ok m /\ le m hi /\ le hi m.
Proof.
  intros [|x l] hi [Hin Hle]; [destruct Hin|].
  destruct (fold_max_spec l x) as [Hr Hr'].
  eexists. split; [reflexivity|]. split.
  - apply Hle. exact Hr.
  - apply Hr'. exact Hin.
Qed.

Lemma py_min_least : forall l lo,
  least float_lt (fun x => In x l) lo ->
  exists m, py_min float_lt l = Ok m /\ le m lo /\ le lo m.
Proof.
  intros [|x l] lo [Hin Hle]; [destruct Hin|].
  destruct (fold_min_spec l x) as [Hr Hr'].
  eexists. split; [reflexivity|]. split.
  - apply Hr'. exact Hin.
  - apply Hle. exact Hr.
Qed.

Lemma greatest_ext : forall (P Q : coord -> Prop) m,
  (forall x, P x <-> Q x) -> greatest float_lt P m -> greatest float_lt Q m.
Proof.
  intros P Q m H [Hm Hle]. split; [now apply H|].
  intros x Hx. apply Hle. now apply H.
Qed.

Lemma least_ext : forall (P Q : coord -> Prop) m,
  (forall x, P x <-> Q x) -> least float_lt P m -> least float_lt Q m.
Proof.
  intros P Q m H [Hm Hle]. split; [now apply H|].
  intros x Hx. apply Hle. now apply H.
Qed.

(** What [is_inside] computes, in terms of the envelope. *)
Lemma is_inside_bool_of_envelope :
  forall (southwest northeast : Location coord) geometry e,
  envelope_of float_lt (geom_lonlats geometry) e ->
  is_inside float_lt southwest northeast geometry =
  Ok (negb (float_lt (max_lon e) (loc_lon southwest)
            || float_lt (loc_lon northeast) (min_lon e))
      && negb (float_lt (max_lat e) (loc_lat southwest)
               || float_lt (loc_lat northeast) (min_lat e))).
Proof.
  intros southwest northeast geometry e (Hlo & Hhi & Hlo' & Hhi').
  rewrite is_inside_eq.
  apply (least_ext _ _ _ (is_lon_evens (geom_lonlats geometry))) in Hlo.
  apply (greatest_ext _ _ _ (is_lon_evens (geom_lonlats geometry))) in Hhi.
  apply (least_ext _ _ _ (is_lat_odds (geom_lonlats geometry))) in Hlo'.
  apply (greatest_ext _ _ _ (is_lat_odds (geom_lonlats geometry))) in Hhi'.
  apply py_min_least in Hlo as (m1 & -> & H1 & H1').
  apply py_max_greatest in Hhi as (m2 & -> & H2 & H2').
  apply py_min_least in Hlo' as (m3 & -> & H3 & H3').
  apply py_max_greatest in Hhi' as (m4 & -> & H4 & H4').
  cbn [bind py_or].
  rewrite (float_lt_same_l _ _ (loc_lon southwest) H2 H2').
  rewrite (float_lt_same_r _ _ (loc_lon northeast) H1 H1').
  rewrite (float_lt_same_l _ _ (loc_lat southwest) H4 H4').
  rewrite (float_lt_same_r _ _ (loc_lat northeast) H3 H3').
  destruct (float_lt (max_lon e) (loc_lon southwest));
    destruct (float_lt (loc_lon northeast) (min_lon e));
    destruct (float_lt (max_lat e) (loc_lat southwest));
    destruct (float_lt (loc_lat northeast) (min_lat e)); reflexivity.
Qed.


(** A sequence with a longitude and a latitude has an envelope, and only
    such a sequence has one. *)
Lemma envelope_exists : forall lonlats : list coord,
  2 <= length lonlats <-> exists e, envelope_of float_lt lonlats e.
Proof.
  intro lonlats. split.
  - destruct lonlats as [|x [|y l]]; cbn [length]; try lia. intros _.
    destruct (fold_min_spec (tl (evens (x :: y :: l))) x) as [A1 A2].
    destruct (fold_max_spec (tl (evens (x :: y :: l))) x) as [B1 B2].
    destruct (fold_min_spec (tl (odds (x :: y :: l))) y) as [C1 C2].
    destruct (fold_max_spec (tl (odds (x :: y :: l))) y) as [D1 D2].
    eexists {| min_lon := _; max_lon := _; min_lat := _; max_lat := _ |}.
    unfold envelope_of. cbn [min_lon max_lon min_lat max_lat].
    split; [|split; [|split]].
    + apply (least_ext (fun v => In v (evens (x :: y :: l))) _ _).
      { intro; symmetry; apply is_lon_evens. }
      split; [exact A1|exact A2].
    + apply (greatest_ext (fun v => In v (evens (x :: y :: l))) _ _).
      { intro; symmetry; apply is_lon_evens. }
      split; [exact B1|exact B2].
    + apply (least_ext (fun v => In v (odds (x :: y :: l))) _ _).
      { intro; symmetry; apply is_lat_odds. }
      split; [exact C1|exact C2].
    + apply (greatest_ext (fun v => In v (odds (x :: y :: l))) _ _).
      { intro; symmetry; apply is_lat_odds. }
      split; [exact D1|exact D2].
  - intros [e (_ & _ & [[k Hk] _] & _)].
    assert (2 * k + 1 < length lonlats)
      by (apply nth_error_Some; congruence).
    lia.
Qed.

End IsInsideProperties.

Lemma Z_ltb_asym : forall a b : Z, Z.ltb a b = true -> Z.ltb b a = false.
Proof. intros a b H. apply Z.ltb_lt in H. apply Z.ltb_ge. lia. Qed.

Lemma Z_ltb_negtrans : forall a b c : Z,
  Z.ltb a c = true -> Z.ltb a b = true \/ Z.ltb b c = true.
Proof.
  intros a b c H. apply Z.ltb_lt in H.
  destruct (Z.ltb_spec a b); [now left|right]. apply Z.ltb_lt. lia.
Qed.

(** A geometry whose envelope touches the corner of the box is inside. *)
Example is_inside_touching :
  Concrete.is_inside Concrete.corner_sw Concrete.corner_ne
    (Concrete.geometry_of "T" "" "" [10; 10; 12; 12]%Z) = Ok true.
Proof. reflexivity. Qed.


(** C10, as stated, fails: a coordinate sequence that is not empty, with one
    value only, a longitude within the box, makes [is_inside] raise. *)
Lemma is_inside_one_value_raises :
  geom_lonlats (Concrete.geometry_of "E" "" "" [5]%Z) <> [] /\
  Concrete.is_inside Concrete.corner_sw Concrete.corner_ne
    (Concrete.geometry_of "E" "" "" [5]%Z) = Raise ValueError.
Proof. split; [discriminate|reflexivity]. Qed.

(* ================================================================== *)
(** * Properties of dictionaries and of the comprehensions over them *)

Lemma dict_get_set : forall (V : Type) (k k' : string) (v : V) (d : dict V),
  dict_get k (dict_set k' v d) =
  if String.eqb k k' then Some v else dict_get k d.
Proof.
  induction d as [|[k1 v1] d IH]; cbn [dict_set dict_get].
  - reflexivity.
  - destruct (String.eqb_spec k' k1) as [->|Hne]; cbn [dict_get].
    + destruct (String.eqb k k1); reflexivity.
    + rewrite IH.
      destruct (String.eqb_spec k k1) as [->|]; [|reflexivity].
      destruct (String.eqb_spec k1 k') as [->|]; [congruence|reflexivity].
Qed.

Lemma dict_mem_set : forall (V : Type) (k k' : string) (v : V) (d : dict V),
  dict_mem k (dict_set k' v d) = String.eqb k k' || dict_mem k d.
Proof.
  intros. unfold dict_mem. rewrite dict_get_set.
  destruct (String.eqb k k'); reflexivity.
Qed.

Lemma dict_values_set : forall (V : Type) (k' : string) (v v' : V) (d : dict V),
  In v (dict_values (dict_set k' v' d)) -> v = v' \/ In v (dict_values d).
Proof.
  unfold dict_values.
  induction d as [|[k1 v1] d IH]; cbn [dict_set map].
  - intros [<-|[]]. now left.
  - destruct (String.eqb k' k1); cbn [map snd In].
    + intros [<-|H]; [now left|right; now right].
    + intros [<-|H]; [right; now left|].
      destruct (IH H); [now left|right; now right].
Qed.

(** A dictionary built by comprehension: its keys are the keys of the objects
    of the generator that pass the condition, and each of its values is such
    an object. *)
Lemma dict_comprehension_spec :
  forall (A : Type) (key : A -> string) (cond : A -> res bool)
         (g : gen A) (acc d : dict A),
  dict_comprehension key cond g acc = Ok d ->
  (forall k, dict_mem k d = true <->
             dict_mem k acc = true \/
             exists a, In a (yielded g) /\ key a = k /\ cond a = Ok true) /\
  (forall v, In v (dict_values d) ->
             In v (dict_values acc) \/
             (In v (yielded g) /\ cond v = Ok true)).
Proof.
  induction g as [|a rest IH|e]; intros acc d H; cbn [dict_comprehension] in H.
  - inversion H; subst. cbn [yielded]. split.
    + intro k. split; [now left|]. intros [Hk|(a & [] & _)]. exact Hk.
    + intros v Hv. now left.
  - destruct (cond a) as [c|e] eqn:Ec; cbn [bind] in H; [|discriminate].
    apply IH in H as [Hkeys Hvals]. cbn [yielded]. split.
    + intro k. rewrite Hkeys. split.
      * intros [Hk|(a' & Hin & Hkey & Hc)].
        -- destruct c; [|now left].
           rewrite dict_mem_set in Hk. apply orb_true_iff in Hk as [Hk|Hk];
             [|now left].
           apply String.eqb_eq in Hk. right. exists a.
           repeat split; [now left|now symmetry|exact Ec].
        -- right. exists a'. repeat split; [now right|exact Hkey|exact Hc].
      * intros [Hk|(a' & [<-|Hin] & Hkey & Hc)].
        -- left. destruct c; [|exact Hk].
           rewrite dict_mem_set, Hk. apply orb_true_r.
        -- left. rewrite Hc in Ec. inversion Ec; subst c.
           rewrite dict_mem_set. apply orb_true_iff. left.
           now apply String.eqb_eq.
        -- right. exists a'. repeat split; assumption.
    + intros v Hv. destruct (Hvals v Hv) as [Hacc|[Hin Hc]].
      * destruct c; [|now left].
        apply dict_values_set in Hacc as [->|Hacc]; [|now left].
        right. split; [now left|exact Ec].
      * right. split; [now right|exact Hc].
  - discriminate.
Qed.

Lemma dict_comprehension_returns :
  forall (A : Type) (key : A -> string) (cond : A -> res bool)
         (g : gen A) (acc : dict A),
  raised g = None ->
  (forall a, In a (yielded g) -> exists b, cond a = Ok b) ->
  exists d, dict_comprehension key cond g acc = Ok d.
Proof.
  induction g as [|a rest IH|e]; intros acc Hr Hc;
    cbn [dict_comprehension raised yielded] in *.
  - eexists. reflexivity.
  - destruct (Hc a (or_introl eq_refl)) as [b ->]. cbn [bind].
    apply IH; [exact Hr|]. intros a' Ha'. apply Hc. now right.
  - discriminate.
Qed.

Lemma set_mem_set_of : forall (k : string) (l : list string),
  set_mem k (set_of l) = true <-> In k l.
Proof.
  intros k l. unfold set_mem, set_of. rewrite existsb_exists. split.
  - intros (x & Hx & E). apply String.eqb_eq in E. subst x.
    now apply nodup_In in Hx.
  - intro H. exists k. split; [now apply nodup_In|apply String.eqb_refl].
Qed.

(* ================================================================== *)
(** * Properties of [get_tile] *)

Section GetTileProperties.

Variable coord : Type.
Variable float_lt : coord -> coord -> bool.
Variable ParseGeometry : list byte -> option (Geometry coord).
Variable ParseIntersection : list byte -> option (Intersection coord).
Variable ParseReference : list byte -> option (Reference coord).

(** [get_tile] returns as soon as the three layers decode to their end
    and every geometry has a longitude and a latitude. *)
Lemma get_tile_returns :
  forall (tile_sw tile_ne : Location coord)
         (geom_content inter_content ref_content : list byte),
  raised (iter_objects ParseGeometry geom_content) = None ->
  raised (iter_objects ParseIntersection inter_content) = None ->
  raised (iter_objects ParseReference ref_content) = None ->
  (forall geom,
     In geom (yielded (iter_objects ParseGeometry geom_content)) ->
     2 <= length (geom_lonlats geom)) ->
  exists result,
    get_tile float_lt ParseGeometry ParseIntersection ParseReference
      tile_sw tile_ne geom_content inter_content ref_content
    = Ok result.
Proof.
  intros tile_sw tile_ne geom_content inter_content ref_content
         HG HI HR Hshape.
  unfold get_tile.
  destruct (dict_comprehension_returns _ (@geom_id coord)
              (is_inside float_lt tile_sw tile_ne)
              (iter_objects ParseGeometry geom_content) [] HG)
    as [G ->].
  { intros geom Hg. apply is_inside_two_values. now apply Hshape. }
  cbn [bind].
  match goal with
  | |- context [dict_comprehension (@inter_id coord) ?c ?g ?acc] =>
      destruct (dict_comprehension_returns _ (@inter_id coord) c g acc HI)
        as [I ->]; [intros; eexists; reflexivity|]
  end.
  cbn [bind].
  match goal with
  | |- context [dict_comprehension (@ref_id coord) ?c ?g ?acc] =>
      destruct (dict_comprehension_returns _ (@ref_id coord) c g acc HR)
        as [R ->]; [intros; eexists; reflexivity|]
  end.
  cbn [bind]. eexists. reflexivity.
Qed.

(** C1.  When [get_tile] returns [(geometries, intersections,
    references)]:
    - [geometries] holds the geometries of the source layer that pass the
      bounding-box test, under their ids;
    - the keys of [intersections] are exactly the [fromIntersectionId] and
      [toIntersectionId] of the geometries in [geometries] that are ids of
      the source intersection layer;
    - the keys of [references] are exactly the ids of the source references
      whose [geometryId] is a key of [geometries]. *)
Theorem get_tile_join :
  forall (tile_sw tile_ne : Location coord)
         (geom_content inter_content ref_content : list byte)
         geometries intersections references,
  get_tile float_lt ParseGeometry ParseIntersection ParseReference
    tile_sw tile_ne geom_content inter_content ref_content
  = Ok (geometries, intersections, references) ->
  (forall k, dict_mem k geometries = true <->
     exists geom,
       In geom (yielded (iter_objects ParseGeometry geom_content)) /\
       geom_id geom = k /\
       is_inside float_lt tile_sw tile_ne geom = Ok true) /\
  (forall geom, In geom (dict_values geometries) ->
     In geom (yielded (iter_objects ParseGeometry geom_content)) /\
     is_inside float_lt tile_sw tile_ne geom = Ok true) /\
  (forall k, dict_mem k intersections = true <->
     (exists geom, In geom (dict_values geometries) /\
                   (geom_fromIntersectionId geom = k \/
                    geom_toIntersectionId geom = k)) /\
     (exists inter,
        In inter (yielded (iter_objects ParseIntersection inter_content)) /\
        inter_id inter = k)) /\
  (forall k, dict_mem k references = true <->
     exists ref,
       In ref (yielded (iter_objects ParseReference ref_content)) /\
       ref_id ref = k /\
       dict_mem (ref_geometryId ref) geometries = true).
Proof.
  intros tile_sw tile_ne geom_content inter_content ref_content
         geometries intersections references H.
  unfold get_tile in H.
  destruct (dict_comprehension _ (is_inside _ _ _) _ _)
    as [G|e] eqn:EG; cbn [bind] in H; [|discriminate].
  destruct (dict_comprehension (@inter_id coord) _ _ _)
    as [I|e] eqn:EI; cbn [bind] in H; [|discriminate].
  destruct (dict_comprehension (@ref_id coord) _ _ _)
    as [R|e] eqn:ER; cbn [bind] in H; [|discriminate].
  inversion H; subst G I R; clear H.
  apply dict_comprehension_spec in EG as [GK GV].
  apply dict_comprehension_spec in EI as [IK _].
  apply dict_comprehension_spec in ER as [RK _].
  split; [|split; [|split]].
  - intro k. rewrite GK. split.
    + intros [Hk|Hk]; [discriminate|exact Hk].
    + intro Hk. now right.
  - intros geom Hg. destruct (GV geom Hg) as [[]|Hg']. exact Hg'.
  - intro k. rewrite IK. split.
    + intros [Hk|(inter & Hin & Hid & Hc)]; [discriminate|].
      inversion Hc as [Hm]. rewrite Hid in Hm.
      apply set_mem_set_of, in_flat_map in Hm as (geom & Hg & Hk).
      split.
      * exists geom. split; [exact Hg|].
        destruct Hk as [Hk|[Hk|[]]]; [now left|now right].
      * exists inter. now split.
    + intros [(geom & Hg & Hk) (inter & Hin & Hid)].
      right. exists inter. repeat split; [exact Hin|exact Hid|].
      f_equal. rewrite Hid. apply set_mem_set_of, in_flat_map.
      exists geom. split; [exact Hg|].
      destruct Hk as [Hk|Hk]; [now left|right; now left].
  - intro k. rewrite RK. split.
    + intros [Hk|(ref & Hin & Hid & Hc)]; [discriminate|].
      exists ref. repeat split; [exact Hin|exact Hid|congruence].
    + intros (ref & Hin & Hid & Hm).
      right. exists ref. repeat split; [exact Hin|exact Hid|congruence].
Qed.

End GetTileProperties.

Lemma get_tile_join_witness :
  exists geometries intersections references,
    Concrete.get_tile Concrete.corner_sw Concrete.corner_ne
      Concrete.geometry_layer Concrete.intersection_layer
      Concrete.reference_layer
    = Ok (geometries, intersections, references) /\
    dict_keys geometries = ["A"; "C"; "D"]%string /\
    dict_keys intersections = ["i1"]%string /\
    dict_keys references = ["r1"; "r3"]%string /\
    (forall k, dict_mem k intersections = true <->
       (exists geom, In geom (dict_values geometries) /\
                     (geom_fromIntersectionId geom = k \/
                      geom_toIntersectionId geom = k)) /\
       (exists inter,
          In inter (yielded (iter_objects Concrete.ParseIntersection
                               Concrete.intersection_layer)) /\
          inter_id inter = k)).
Proof.
  do 3 eexists.
  split; [vm_compute; reflexivity|].
  split; [reflexivity|]. split; [reflexivity|]. split; [reflexivity|].
  refine (proj1 (proj2 (proj2
    (get_tile_join Z Z.ltb Concrete.ParseGeometry Concrete.ParseIntersection
       Concrete.ParseReference Concrete.corner_sw Concrete.corner_ne
       Concrete.geometry_layer Concrete.intersection_layer
       Concrete.reference_layer _ _ _ _)))).
  vm_compute. reflexivity.
Defined.

(* ================================================================== *)
(** * Properties of the projections *)

Section FeatureProperties.

Variable coord : Type.
Variable py_round : coord -> Z -> coord.

Local Open Scope string_scope.


(** C6.  A reference that does not have exactly two location references,
    one with a single entry in particular, is not projected: unpacking
    [LR0, LR1] raises [ValueError]. *)
Theorem reference_feature_wrong_count :
  forall reference : Reference coord,
  length (ref_locationReferences reference) <> 2 ->
  reference_feature py_round reference = Raise ValueError.
Proof.
  intros reference H. unfold reference_feature.
  destruct (ref_locationReferences reference) as [|a [|b [|c l]]];
    try reflexivity.
  now contradiction H.
Qed.

(** [geometry_feature] with its two comprehensions evaluated: the
    coordinates pair the rounded longitudes with the rounded latitudes,
    as [zip] does, up to the shorter of the two lists. *)
Lemma geometry_feature_coordinates : forall geometry : Geometry coord,
  exists out,
    geometry_feature py_round geometry = Ok out /\
    json_get "geometry" out =
    Some (JObj [
      ("type", JStr "LineString");
      ("coordinates",
         JList (map (fun xy => JList [JFloat (fst xy); JFloat (snd xy)])
                  (combine
                     (map (round_coord py_round)
                        (evens (geom_lonlats geometry)))
                     (map (round_coord py_round)
                        (odds (geom_lonlats geometry))))))]).
Proof.
  intro geometry. unfold geometry_feature.
  rewrite comprehension_range_0, comprehension_range_1. cbn [bind].
  eexists. split; reflexivity.
Qed.

End FeatureProperties.


Lemma reference_feature_wrong_count_witness :
  let LR0 := {| LR_intersectionId := "X"; LR_lon := 1%Z; LR_lat := 2%Z;
                LR_distanceToNextRef := 10; LR_inboundBearing := 90;
                LR_outboundBearing := 95 |} in
  let reference := {| ref_id := "r"; ref_geometryId := "g";
                      ref_formOfWay := 2;
                      ref_locationReferences := [LR0] |} in
  length (ref_locationReferences reference) <> 2 /\
  reference_feature Concrete.py_round reference = Raise ValueError.
Proof.
  intros LR0 reference.
  assert (H : length (ref_locationReferences reference) <> 2)
    by (cbn; discriminate).
  split; [exact H|].
  exact (reference_feature_wrong_count Z Concrete.py_round reference H).
Defined.

(* ================================================================== *)
(** * The shape of a geometry through [get_tile] and [main] *)


Lemma evens_cons : forall (A : Type) (x : A) (l : list A),
  evens (x :: l) = x :: odds l.
Proof. intros A x [|y l]; reflexivity. Qed.


Section ShapeProperties.

Variable coord : Type.
Variable float_lt : coord -> coord -> bool.
Variable py_round : coord -> Z -> coord.
Variable ParseGeometry : list byte -> option (Geometry coord).
Variable ParseIntersection : list byte -> option (Intersection coord).
Variable ParseReference : list byte -> option (Reference coord).

Local Open Scope string_scope.


End ShapeProperties.




(* ================================================================== *)
(** * More on [iter_objects]: composition, rejected messages, size *)

Lemma DecodeVarint_loop_offset : forall mask bytes k pos result shift,
  DecodeVarint_loop mask bytes (k + pos) result shift =
  match DecodeVarint_loop mask bytes pos result shift with
  | Ok (v, p) => Ok (v, k + p)
  | Raise e => Raise e
  end.
Proof.
  induction bytes as [|b bytes IH]; intros k pos result shift;
    cbn [DecodeVarint_loop].
  - reflexivity.
  - destruct (N.eqb (N.land (Byte.to_N b) 128) 0).
    + do 2 f_equal. lia.
    + destruct (64 <=? shift + 7)%N; [reflexivity|].
      rewrite <- IH. f_equal. lia.
Qed.

Lemma DecodeVarint32_app : forall pre content p,
  DecodeVarint32 (pre ++ content) (length pre + p) =
  match DecodeVarint32 content p with
  | Ok (v, q) => Ok (v, length pre + q)
  | Raise e => Raise e
  end.
Proof.
  intros pre content p. unfold DecodeVarint32.
  rewrite skipn_app, skipn_all2, app_nil_l by lia.
  replace (length pre + p - length pre) with p by lia.
  apply DecodeVarint_loop_offset.
Qed.

Lemma slice_app : forall (pre content : list byte) a b,
  slice (pre ++ content) (length pre + a) (length pre + b) = slice content a b.
Proof.
  intros. unfold slice.
  rewrite skipn_app, skipn_all2, app_nil_l by lia.
  replace (length pre + a - length pre) with a by lia.
  replace (length pre + b - (length pre + a)) with (b - a) by lia.
  reflexivity.
Qed.

Section IterObjectsComposition.

Variable A : Type.
Variable ParseFromString : list byte -> option A.

(** What is before the position does not matter. *)
Lemma iter_from_app : forall n pre content p,
  length content - p <= n ->
  iter_from ParseFromString (pre ++ content) (length pre + p) =
  iter_from ParseFromString content p.
Proof.
  induction n as [|n IH]; intros pre content p Hn;
    rewrite (@iter_from_eq A ParseFromString (pre ++ content)),
            (@iter_from_eq A ParseFromString content);
    rewrite length_app;
    destruct (Nat.ltb_spec (length pre + p) (length pre + length content));
    destruct (Nat.ltb_spec p (length content)); try lia; try reflexivity.
  rewrite DecodeVarint32_app.
  destruct (DecodeVarint32 content p) as [[v q]|e] eqn:E; [|reflexivity].
  apply DecodeVarint32_position in E.
  rewrite <- Nat.add_assoc, slice_app.
  destruct (ParseFromString _); [|reflexivity].
  f_equal. apply IH. lia.
Qed.

(** X1.  Decoding composes: on a buffer that starts with valid frames,
    [iter_objects] yields their objects and then does what it does on the
    rest of the buffer taken alone. *)
Theorem iter_objects_app :
  forall (messages : list (list byte)) (objects : list A) (rest : list byte),
  Forall2 (decodes ParseFromString) messages objects ->
  iter_objects ParseFromString (frames messages ++ rest) =
  yields objects (iter_objects ParseFromString rest).
Proof.
  intros messages objects rest H.
  rewrite (iter_objects_prefix rest H). f_equal.
  rewrite <- (Nat.add_0_r (length (frames messages))).
  rewrite (iter_from_app (length rest)) by lia.
  symmetry. apply iter_objects_from.
Qed.


Lemma iter_loop_count : forall fuel content position,
  length (yielded (iter_loop ParseFromString fuel content position))
  <= length content - position.
Proof.
  induction fuel as [|fuel IH]; intros content position;
    cbn [iter_loop yielded length]; [lia|].
  destruct (Nat.ltb_spec position (length content)); [|cbn; lia].
  destruct (DecodeVarint32 content position) as [[v q]|e] eqn:E; [|cbn; lia].
  apply DecodeVarint32_position in E.
  destruct (ParseFromString _); [|cbn; lia].
  cbn [yielded length].
  specialize (IH content (q + N.to_nat v)). lia.
Qed.

(** X3.  Every record costs at least one byte: [iter_objects] never yields
    more records than the buffer has bytes. *)
Theorem iter_objects_count : forall content : list byte,
  length (yielded (iter_objects ParseFromString content)) <= length content.
Proof.
  intro content. unfold iter_objects.
  pose proof (iter_loop_count (length content) content 0). lia.
Qed.

End IterObjectsComposition.

Lemma iter_objects_app_witness :
  Forall2 (decodes Concrete.ParseGeometry)
    [Concrete.message_A] [Concrete.geometry_A] /\
  iter_objects Concrete.ParseGeometry
    (frames [Concrete.message_A] ++ frame Concrete.message_B)
  = GYield Concrete.geometry_A
      (iter_objects Concrete.ParseGeometry (frame Concrete.message_B)).
Proof.
  assert (H : Forall2 (decodes Concrete.ParseGeometry)
                [Concrete.message_A] [Concrete.geometry_A]).
  { repeat constructor; vm_compute; reflexivity. }
  split; [exact H|].
  exact (iter_objects_app _ Concrete.ParseGeometry
           [Concrete.message_A] [Concrete.geometry_A]
           (frame Concrete.message_B) H).
Defined.


(* ================================================================== *)
(** * More on dictionaries built by comprehension *)

Lemma find_app_first : forall (A : Type) (f : A -> bool) (l1 l2 : list A),
  find f (l1 ++ l2) =
  match find f l1 with
  | Some x => Some x
  | None => find f l2
  end.
Proof.
  induction l1 as [|x l1 IH]; intro l2; cbn [app find]; [reflexivity|].
  destruct (f x); [reflexivity|apply IH].
Qed.

Lemma dict_keys_set_in : forall (V : Type) (k x : string) (v : V) (d : dict V),
  In x (dict_keys (dict_set k v d)) -> x = k \/ In x (dict_keys d).
Proof.
  unfold dict_keys.
  induction d as [|[k1 v1] d IH]; cbn [dict_set map fst In].
  - intros [<-|[]]. now left.
  - destruct (String.eqb_spec k k1) as [->|Hne]; cbn [map fst In].
    + intros [<-|H]; [now left|right; now right].
    + intros [<-|H]; [right; now left|].
      destruct (IH H); [now left|right; now right].
Qed.

Lemma dict_set_NoDup : forall (V : Type) (k : string) (v : V) (d : dict V),
  NoDup (dict_keys d) -> NoDup (dict_keys (dict_set k v d)).
Proof.
  unfold dict_keys.
  induction d as [|[k1 v1] d IH]; cbn [dict_set map fst]; intro H.
  - repeat constructor. intros [].
  - inversion H as [|? ? Hnotin Hd]; subst.
    destruct (String.eqb_spec k k1) as [->|Hne]; cbn [map fst].
    + constructor; assumption.
    + constructor; [|now apply IH].
      intro Hin. apply dict_keys_set_in in Hin as [Hin|Hin];
        [congruence|contradiction].
Qed.

Lemma dict_set_new : forall (V : Type) (k : string) (v : V) (d : dict V),
  ~ In k (dict_keys d) -> dict_set k v d = d ++ [(k, v)].
Proof.
  unfold dict_keys.
  induction d as [|[k1 v1] d IH]; cbn [dict_set map fst In app]; intro H.
  - reflexivity.
  - destruct (String.eqb_spec k k1) as [->|Hne].
    + exfalso. apply H. now left.
    + f_equal. apply IH. intro Hin. apply H. now right.
Qed.

Lemma dict_nonempty_mem : forall (V : Type) (d : dict V),
  d <> [] -> exists k, dict_mem k d = true.
Proof.
  intros V [|[k v] d] H; [congruence|].
  exists k. unfold dict_mem. cbn [dict_get]. now rewrite String.eqb_refl.
Qed.

Section DictComprehension.

Variable A : Type.
Variable key : A -> string.
Variable cond : A -> res bool.

(** The comprehension returns only if the generator ends without an
    exception and the condition raises on none of its objects. *)
Lemma dict_comprehension_Ok_inv : forall (g : gen A) (acc d : dict A),
  dict_comprehension key cond g acc = Ok d ->
  raised g = None /\ forall a, In a (yielded g) -> exists b, cond a = Ok b.
Proof.
  induction g as [|a rest IH|e]; intros acc d H;
    cbn [dict_comprehension raised yielded] in *.
  - split; [reflexivity|]. intros a [].
  - destruct (cond a) as [c|e] eqn:Ec; cbn [bind] in H; [|discriminate].
    apply IH in H as [Hr Hc]. split; [exact Hr|].
    intros a' [<-|Ha']; [now exists c|now apply Hc].
  - discriminate.
Qed.

(** The exception that ends the generator is the one of the comprehension,
    when the condition raises on none of the objects before it. *)
Lemma dict_comprehension_gen_raises : forall (g : gen A) (acc : dict A) e,
  raised g = Some e ->
  (forall a, In a (yielded g) -> exists b, cond a = Ok b) ->
  dict_comprehension key cond g acc = Raise e.
Proof.
  induction g as [|a rest IH|e']; intros acc e Hr Hc;
    cbn [dict_comprehension raised yielded] in *.
  - discriminate.
  - destruct (Hc a (or_introl eq_refl)) as [b ->]. cbn [bind].
    apply IH; [exact Hr|]. intros a' Ha'. apply Hc. now right.
  - congruence.
Qed.

(** Last wins: under a key stands the last object of that key that is
    kept. *)
Lemma dict_comprehension_get : forall (g : gen A) (acc d : dict A),
  dict_comprehension key cond g acc = Ok d ->
  forall k,
  dict_get k d =
  match find (fun a => String.eqb k (key a) && kept cond a)
             (rev (yielded g)) with
  | Some a => Some a
  | None => dict_get k acc
  end.
Proof.
  induction g as [|a rest IH|e]; intros acc d H k;
    cbn [dict_comprehension yielded rev] in *.
  - inversion H; subst. reflexivity.
  - destruct (cond a) as [c|e] eqn:Ec; cbn [bind] in H; [|discriminate].
    rewrite (IH _ _ H k), find_app_first.
    destruct (find _ (rev (yielded rest))); [reflexivity|].
    cbn [find]. unfold kept. rewrite Ec.
    destruct c.
    + rewrite dict_get_set, andb_true_r.
      destruct (String.eqb k (key a)); reflexivity.
    + now rewrite andb_false_r.
  - discriminate.
Qed.

Lemma dict_comprehension_NoDup : forall (g : gen A) (acc d : dict A),
  dict_comprehension key cond g acc = Ok d ->
  NoDup (dict_keys acc) -> NoDup (dict_keys d).
Proof.
  induction g as [|a rest IH|e]; intros acc d H Hacc;
    cbn [dict_comprehension] in H.
  - inversion H; subst. exact Hacc.
  - destruct (cond a) as [c|e] eqn:Ec; cbn [bind] in H; [|discriminate].
    apply (IH _ _ H). destruct c; [now apply dict_set_NoDup|exact Hacc].
  - discriminate.
Qed.

(** With distinct keys the dictionary is the list of the kept objects, in
    the order of the generator. *)
Lemma dict_comprehension_order : forall (g : gen A) (acc d : dict A),
  dict_comprehension key cond g acc = Ok d ->
  NoDup (dict_keys acc ++ map key (filter (kept cond) (yielded g))) ->
  d = acc ++ map (fun a => (key a, a)) (filter (kept cond) (yielded g)).
Proof.
  induction g as [|a rest IH|e]; intros acc d H Hnd;
    cbn [dict_comprehension yielded filter] in *.
  - inversion H; subst. cbn. now rewrite app_nil_r.
  - destruct (cond a) as [c|e] eqn:Ec; cbn [bind] in H; [|discriminate].
    unfold kept in Hnd |- * at 1. rewrite Ec in Hnd |- *.
    destruct c.
    + cbn [map] in Hnd |- *.
      assert (Hnew : ~ In (key a) (dict_keys acc)).
      { apply NoDup_remove_2 in Hnd. intro Hin. apply Hnd.
        apply in_or_app. now left. }
      rewrite (dict_set_new _ _ _ _ Hnew) in H.
      rewrite (IH _ _ H).
      * now rewrite <- app_assoc.
      * unfold dict_keys in *. rewrite map_app, <- app_assoc. exact Hnd.
    + apply (IH _ _ H). exact Hnd.
  - discriminate.
Qed.

Lemma dict_comprehension_none_kept : forall (g : gen A) (acc d : dict A),
  dict_comprehension key cond g acc = Ok d ->
  (forall a, In a (yielded g) -> cond a = Ok false) ->
  d = acc.
Proof.
  induction g as [|a rest IH|e]; intros acc d H Hc;
    cbn [dict_comprehension yielded] in *.
  - now inversion H.
  - rewrite (Hc a (or_introl eq_refl)) in H. cbn [bind] in H.
    apply (IH _ _ H). intros a' Ha'. apply Hc. now right.
  - discriminate.
Qed.

End DictComprehension.

(* ================================================================== *)
(** * More on [get_tile]: errors, duplicates, order, integrity *)

Section GetTileMore.

Variable coord : Type.
Variable float_lt : coord -> coord -> bool.
Variable ParseGeometry : list byte -> option (Geometry coord).
Variable ParseIntersection : list byte -> option (Intersection coord).
Variable ParseReference : list byte -> option (Reference coord).

Local Abbreviation tile :=
  (get_tile float_lt ParseGeometry ParseIntersection ParseReference).

(** The three comprehensions behind a result of [get_tile]. *)
Lemma get_tile_inv :
  forall (tile_sw tile_ne : Location coord)
         (geom_content inter_content ref_content : list byte)
         geometries intersections references,
  tile tile_sw tile_ne geom_content inter_content ref_content
  = Ok (geometries, intersections, references) ->
  dict_comprehension (@geom_id coord) (is_inside float_lt tile_sw tile_ne)
    (iter_objects ParseGeometry geom_content) [] = Ok geometries /\
  dict_comprehension (@inter_id coord)
    (fun inter =>
       Ok (set_mem (inter_id inter)
             (set_of (flat_map
                        (fun geom => [geom_fromIntersectionId geom;
                                      geom_toIntersectionId geom])
                        (dict_values geometries)))))
    (iter_objects ParseIntersection inter_content) [] = Ok intersections /\
  dict_comprehension (@ref_id coord)
    (fun ref => Ok (dict_mem (ref_geometryId ref) geometries))
    (iter_objects ParseReference ref_content) [] = Ok references.
Proof.
  intros tile_sw tile_ne geom_content inter_content ref_content
         geometries intersections references H.
  unfold get_tile in H.
  destruct (dict_comprehension _ (is_inside _ _ _) _ _)
    as [G|e] eqn:EG; cbn [bind] in H; [|discriminate].
  destruct (dict_comprehension (@inter_id coord) _ _ _)
    as [I|e] eqn:EI; cbn [bind] in H; [|discriminate].
  destruct (dict_comprehension (@ref_id coord) _ _ _)
    as [R|e] eqn:ER; cbn [bind] in H; [|discriminate].
  inversion H; subst G I R. repeat split; assumption.
Qed.

(** X4.  [get_tile] returns exactly when the three layers are decoded to
    their end without an exception and [is_inside] raises on no geometry of
    the geometry layer. *)
Theorem get_tile_returns_iff :
  forall (tile_sw tile_ne : Location coord)
         (geom_content inter_content ref_content : list byte),
  (exists result,
     tile tile_sw tile_ne geom_content inter_content ref_content
     = Ok result) <->
  raised (iter_objects ParseGeometry geom_content) = None /\
  (forall geom,
     In geom (yielded (iter_objects ParseGeometry geom_content)) ->
     exists b, is_inside float_lt tile_sw tile_ne geom = Ok b) /\
  raised (iter_objects ParseIntersection inter_content) = None /\
  raised (iter_objects ParseReference ref_content) = None.
Proof.
  intros tile_sw tile_ne geom_content inter_content ref_content. split.
  - intros [[[G I] R] H]. apply get_tile_inv in H as (HG & HI & HR).
    apply dict_comprehension_Ok_inv in HG as [HG1 HG2].
    apply dict_comprehension_Ok_inv in HI as [HI1 _].
    apply dict_comprehension_Ok_inv in HR as [HR1 _].
    repeat split; assumption.
  - intros (HG & Hin & HI & HR). unfold get_tile.
    destruct (dict_comprehension_returns _ (@geom_id coord)
                (is_inside float_lt tile_sw tile_ne)
                (iter_objects ParseGeometry geom_content) [] HG Hin)
      as [G ->].
    cbn [bind].
    match goal with
    | |- context [dict_comprehension (@inter_id coord) ?c ?g ?acc] =>
        destruct (dict_comprehension_returns _ (@inter_id coord) c g acc HI)
          as [I ->]; [intros; eexists; reflexivity|]
    end.
    cbn [bind].
    match goal with
    | |- context [dict_comprehension (@ref_id coord) ?c ?g ?acc] =>
        destruct (dict_comprehension_returns _ (@ref_id coord) c g acc HR)
          as [R ->]; [intros; eexists; reflexivity|]
    end.
    cbn [bind]. eexists. reflexivity.
Qed.

(** X5.  When [is_inside] raises on no geometry, the exception of
    [get_tile] is the exception of the first layer that fails to decode,
    in the order geometry, intersection, reference; when none fails,
    [get_tile] returns. *)
Theorem get_tile_first_error :
  forall (tile_sw tile_ne : Location coord)
         (geom_content inter_content ref_content : list byte),
  (forall geom,
     In geom (yielded (iter_objects ParseGeometry geom_content)) ->
     exists b, is_inside float_lt tile_sw tile_ne geom = Ok b) ->
  match raised (iter_objects ParseGeometry geom_content),
        raised (iter_objects ParseIntersection inter_content),
        raised (iter_objects ParseReference ref_content) with
  | Some e, _, _ | None, Some e, _ | None, None, Some e =>
      tile tile_sw tile_ne geom_content inter_content ref_content = Raise e
  | None, None, None =>
      exists result,
        tile tile_sw tile_ne geom_content inter_content ref_content
        = Ok result
  end.
Proof.
  intros tile_sw tile_ne geom_content inter_content ref_content Hin.
  unfold get_tile.
  destruct (raised (iter_objects ParseGeometry geom_content))
    as [e|] eqn:HG.
  { now rewrite (dict_comprehension_gen_raises _ _ _ _ [] e HG Hin). }
  destruct (dict_comprehension_returns _ (@geom_id coord)
              (is_inside float_lt tile_sw tile_ne)
              (iter_objects ParseGeometry geom_content) [] HG Hin)
    as [G ->].
  cbn [bind].
  destruct (raised (iter_objects ParseIntersection inter_content))
    as [e|] eqn:HI.
  { match goal with
    | |- context [dict_comprehension (@inter_id coord) ?c ?g ?acc] =>
        rewrite (dict_comprehension_gen_raises _ (@inter_id coord) c g acc
                   e HI); [reflexivity|intros; eexists; reflexivity]
    end. }
  match goal with
  | |- context [dict_comprehension (@inter_id coord) ?c ?g ?acc] =>
      destruct (dict_comprehension_returns _ (@inter_id coord) c g acc HI)
        as [I ->]; [intros; eexists; reflexivity|]
  end.
  cbn [bind].
  destruct (raised (iter_objects ParseReference ref_content))
    as [e|] eqn:HR.
  { match goal with
    | |- context [dict_comprehension (@ref_id coord) ?c ?g ?acc] =>
        rewrite (dict_comprehension_gen_raises _ (@ref_id coord) c g acc
                   e HR); [reflexivity|intros; eexists; reflexivity]
    end. }
  match goal with
  | |- context [dict_comprehension (@ref_id coord) ?c ?g ?acc] =>
      destruct (dict_comprehension_returns _ (@ref_id coord) c g acc HR)
        as [R ->]; [intros; eexists; reflexivity|]
  end.
  cbn [bind]. eexists. reflexivity.
Qed.

(** X6.  Every entry of the three dictionaries stands under the id of its
    record, and no id is a key twice. *)
Theorem get_tile_keys_are_ids :
  forall (tile_sw tile_ne : Location coord)
         (geom_content inter_content ref_content : list byte)
         geometries intersections references,
  tile tile_sw tile_ne geom_content inter_content ref_content
  = Ok (geometries, intersections, references) ->
  (forall k geom, dict_get k geometries = Some geom -> geom_id geom = k) /\
  (forall k inter,
     dict_get k intersections = Some inter -> inter_id inter = k) /\
  (forall k ref, dict_get k references = Some ref -> ref_id ref = k) /\
  NoDup (dict_keys geometries) /\
  NoDup (dict_keys intersections) /\
  NoDup (dict_keys references).
Proof.
  intros tile_sw tile_ne geom_content inter_content ref_content
         geometries intersections references H.
  apply get_tile_inv in H as (HG & HI & HR).
  assert (Hkey : forall (A : Type) (key : A -> string) cond g d,
            dict_comprehension key cond g [] = Ok d ->
            forall k a, dict_get k d = Some a -> key a = k).
  { intros A key cond g d Hd k a Hget.
    rewrite (dict_comprehension_get _ _ _ _ _ _ Hd k) in Hget.
    destruct (find _ _) as [a'|] eqn:Ef; [|discriminate].
    inversion Hget; subst a'. apply find_some in Ef as [_ Ef].
    apply andb_true_iff in Ef as [Ef _]. apply String.eqb_eq in Ef.
    now symmetry. }
  split; [exact (Hkey _ _ _ _ _ HG)|].
  split; [exact (Hkey _ _ _ _ _ HI)|].
  split; [exact (Hkey _ _ _ _ _ HR)|].
  repeat split;
    eapply dict_comprehension_NoDup; try eassumption; constructor.
Qed.

(** X7.  Duplicate ids: under an id, [geometries] holds the last geometry
    of the layer with that id that passes the bounding-box test, whatever
    came before it. *)
Theorem get_tile_last_wins :
  forall (tile_sw tile_ne : Location coord)
         (geom_content inter_content ref_content : list byte)
         geometries intersections references,
  tile tile_sw tile_ne geom_content inter_content ref_content
  = Ok (geometries, intersections, references) ->
  forall k,
  dict_get k geometries =
  find (fun geom => String.eqb k (geom_id geom)
                    && kept (is_inside float_lt tile_sw tile_ne) geom)
       (rev (yielded (iter_objects ParseGeometry geom_content))).
Proof.
  intros tile_sw tile_ne geom_content inter_content ref_content
         geometries intersections references H k.
  apply get_tile_inv in H as (HG & _ & _).
  rewrite (dict_comprehension_get _ _ _ _ _ _ HG k).
  destruct (find _ _); reflexivity.
Qed.

(** X8.  When the geometries that pass the bounding-box test have distinct
    ids, [geometries] holds them in the order of the layer. *)
Theorem get_tile_keeps_order :
  forall (tile_sw tile_ne : Location coord)
         (geom_content inter_content ref_content : list byte)
         geometries intersections references,
  tile tile_sw tile_ne geom_content inter_content ref_content
  = Ok (geometries, intersections, references) ->
  NoDup (map (@geom_id coord)
           (filter (kept (is_inside float_lt tile_sw tile_ne))
              (yielded (iter_objects ParseGeometry geom_content)))) ->
  dict_values geometries =
  filter (kept (is_inside float_lt tile_sw tile_ne))
    (yielded (iter_objects ParseGeometry geom_content)).
Proof.
  intros tile_sw tile_ne geom_content inter_content ref_content
         geometries intersections references H Hnd.
  apply get_tile_inv in H as (HG & _ & _).
  rewrite (dict_comprehension_order _ _ _ _ _ _ HG Hnd).
  unfold dict_values. cbn [app]. rewrite map_map. cbn [snd]. apply map_id.
Qed.

(** X9.  Integrity of the join on the records themselves: every reference
    returned is a reference of the source layer whose geometry is returned,
    and every intersection returned is an intersection of the source layer
    at an end of a geometry returned. *)
Theorem get_tile_integrity :
  forall (tile_sw tile_ne : Location coord)
         (geom_content inter_content ref_content : list byte)
         geometries intersections references,
  tile tile_sw tile_ne geom_content inter_content ref_content
  = Ok (geometries, intersections, references) ->
  (forall ref, In ref (dict_values references) ->
     In ref (yielded (iter_objects ParseReference ref_content)) /\
     dict_mem (ref_geometryId ref) geometries = true) /\
  (forall inter, In inter (dict_values intersections) ->
     In inter (yielded (iter_objects ParseIntersection inter_content)) /\
     exists geom, In geom (dict_values geometries) /\
                  (geom_fromIntersectionId geom = inter_id inter \/
                   geom_toIntersectionId geom = inter_id inter)).
Proof.
  intros tile_sw tile_ne geom_content inter_content ref_content
         geometries intersections references H.
  apply get_tile_inv in H as (_ & HI & HR).
  apply dict_comprehension_spec in HI as [_ HI].
  apply dict_comprehension_spec in HR as [_ HR].
  split.
  - intros ref Hin. destruct (HR ref Hin) as [[]|[Hy Hc]].
    split; [exact Hy|congruence].
  - intros inter Hin. destruct (HI inter Hin) as [[]|[Hy Hc]].
    split; [exact Hy|].
    inversion Hc as [Hm].
    apply set_mem_set_of, in_flat_map in Hm as (geom & Hg & Hk).
    exists geom. split; [exact Hg|].
    destruct Hk as [Hk|[Hk|[]]]; [now left|now right].
Qed.

(** X10.  A tile in which no geometry passes the bounding-box test has no
    intersection and no reference either. *)
Theorem get_tile_nothing_inside :
  forall (tile_sw tile_ne : Location coord)
         (geom_content inter_content ref_content : list byte)
         geometries intersections references,
  tile tile_sw tile_ne geom_content inter_content ref_content
  = Ok (geometries, intersections, references) ->
  geometries = [] ->
  intersections = [] /\ references = [].
Proof.
  intros tile_sw tile_ne geom_content inter_content ref_content
         geometries intersections references H HG.
  apply get_tile_inv in H as (_ & HI & HR). subst geometries.
  split.
  - apply (dict_comprehension_none_kept _ _ _ _ _ _ HI). reflexivity.
  - apply (dict_comprehension_none_kept _ _ _ _ _ _ HR). reflexivity.
Qed.

End GetTileMore.

Lemma get_tile_first_error_witness :
  let content := frames [Concrete.message_A] ++ [x80] in
  (forall geom,
     In geom (yielded (iter_objects Concrete.ParseGeometry content)) ->
     exists b,
       is_inside Z.ltb Concrete.corner_sw Concrete.corner_ne geom = Ok b) /\
  Concrete.get_tile Concrete.corner_sw Concrete.corner_ne content
    Concrete.intersection_layer Concrete.reference_layer
  = Raise IndexError.
Proof.
  intro content.
  assert (H : forall geom,
            In geom (yielded (iter_objects Concrete.ParseGeometry content)) ->
            exists b,
              is_inside Z.ltb Concrete.corner_sw Concrete.corner_ne geom
              = Ok b).
  { intros geom Hin. vm_compute in Hin. destruct Hin as [<-|[]].
    exists true. reflexivity. }
  split; [exact H|].
  exact (get_tile_first_error Z Z.ltb Concrete.ParseGeometry
           Concrete.ParseIntersection Concrete.ParseReference
           Concrete.corner_sw Concrete.corner_ne content
           Concrete.intersection_layer Concrete.reference_layer H).
Defined.

Lemma get_tile_keys_are_ids_witness :
  exists geometries intersections references,
    Concrete.get_tile Concrete.corner_sw Concrete.corner_ne
      Concrete.geometry_layer Concrete.intersection_layer
      Concrete.reference_layer
    = Ok (geometries, intersections, references) /\
    (forall k geom, dict_get k geometries = Some geom -> geom_id geom = k) /\
    NoDup (dict_keys geometries).
Proof.
  do 3 eexists. split; [vm_compute; reflexivity|].
  pose proof (get_tile_keys_are_ids Z Z.ltb Concrete.ParseGeometry
                Concrete.ParseIntersection Concrete.ParseReference
                Concrete.corner_sw Concrete.corner_ne
                Concrete.geometry_layer Concrete.intersection_layer
                Concrete.reference_layer _ _ _ eq_refl)
    as (H1 & _ & _ & H2 & _).
  split; [exact H1|exact H2].
Defined.

Lemma get_tile_last_wins_witness :
  let content :=
    frames [Concrete.message_A;
            Concrete.geometry_message "A" "i7" "i8" [2; 2; 3; 3]%Z] in
  exists geometries intersections references,
    Concrete.get_tile Concrete.corner_sw Concrete.corner_ne content
      Concrete.intersection_layer Concrete.reference_layer
    = Ok (geometries, intersections, references) /\
    dict_get "A" geometries
    = Some (Concrete.geometry_of "A" "i7" "i8" [2; 2; 3; 3]%Z).
Proof.
  intro content. do 3 eexists. split; [vm_compute; reflexivity|].
  refine (eq_trans
            (get_tile_last_wins Z Z.ltb Concrete.ParseGeometry
               Concrete.ParseIntersection Concrete.ParseReference
               Concrete.corner_sw Concrete.corner_ne content
               Concrete.intersection_layer Concrete.reference_layer
               _ _ _ eq_refl "A"%string) _).
  reflexivity.
Defined.

Lemma get_tile_keeps_order_witness :
  exists geometries intersections references,
    Concrete.get_tile Concrete.corner_sw Concrete.corner_ne
      Concrete.geometry_layer Concrete.intersection_layer
      Concrete.reference_layer
    = Ok (geometries, intersections, references) /\
    dict_values geometries
    = [Concrete.geometry_A; Concrete.geometry_C; Concrete.geometry_D].
Proof.
  do 3 eexists. split; [vm_compute; reflexivity|].
  refine (eq_trans
            (get_tile_keeps_order Z Z.ltb Concrete.ParseGeometry
               Concrete.ParseIntersection Concrete.ParseReference
               Concrete.corner_sw Concrete.corner_ne
               Concrete.geometry_layer Concrete.intersection_layer
               Concrete.reference_layer _ _ _ eq_refl _) _).
  - vm_compute.
    repeat (constructor; [cbn; intuition discriminate|]). constructor.
  - reflexivity.
Defined.

Lemma get_tile_integrity_witness :
  exists geometries intersections references,
    Concrete.get_tile Concrete.corner_sw Concrete.corner_ne
      Concrete.geometry_layer Concrete.intersection_layer
      Concrete.reference_layer
    = Ok (geometries, intersections, references) /\
    (forall ref, In ref (dict_values references) ->
       In ref (yielded (iter_objects Concrete.ParseReference
                          Concrete.reference_layer)) /\
       dict_mem (ref_geometryId ref) geometries = true).
Proof.
  do 3 eexists. split; [vm_compute; reflexivity|].
  exact (proj1 (get_tile_integrity Z Z.ltb Concrete.ParseGeometry
                  Concrete.ParseIntersection Concrete.ParseReference
                  Concrete.corner_sw Concrete.corner_ne
                  Concrete.geometry_layer Concrete.intersection_layer
                  Concrete.reference_layer _ _ _ eq_refl)).
Defined.

Lemma get_tile_nothing_inside_witness :
  exists intersections references,
    Concrete.get_tile Concrete.corner_sw Concrete.corner_ne
      (frames [Concrete.message_B]) Concrete.intersection_layer
      Concrete.reference_layer
    = Ok ([], intersections, references) /\
    intersections = [] /\ references = [].
Proof.
  do 2 eexists. split; [vm_compute; reflexivity|].
  exact (get_tile_nothing_inside Z Z.ltb Concrete.ParseGeometry
           Concrete.ParseIntersection Concrete.ParseReference
           Concrete.corner_sw Concrete.corner_ne
           (frames [Concrete.message_B]) Concrete.intersection_layer
           Concrete.reference_layer _ _ _ eq_refl eq_refl).
Defined.

(* ================================================================== *)
(** * More on [is_inside]: points in the box, larger boxes *)

Section IsInsideMore.

Variable coord : Type.
Variable float_lt : coord -> coord -> bool.

Local Abbreviation leq := (float_le float_lt).

Lemma is_inside_true_two_values :
  forall (southwest northeast : Location coord) geometry,
  is_inside float_lt southwest northeast geometry = Ok true ->
  2 <= length (geom_lonlats geometry).
Proof.
  intros southwest northeast geometry H. rewrite is_inside_eq in H.
  destruct (geom_lonlats geometry) as [|x [|y l]]; cbn [length]; try lia.
  - discriminate.
  - cbn in H. destruct (float_lt x (loc_lon southwest)); cbn in H;
      [discriminate|].
    destruct (float_lt (loc_lon northeast) x); discriminate.
Qed.

Hypothesis float_lt_asym : forall a b,
  float_lt a b = true -> float_lt b a = false.
Hypothesis float_lt_negtrans : forall a b c,
  float_lt a c = true -> float_lt a b = true \/ float_lt b c = true.

Local Abbreviation le_trans := (float_le_trans coord float_lt float_lt_negtrans).

(** X11.  No false negative: a geometry with a point in the box, bounds
    included, is inside, whatever its other points are. *)
Theorem is_inside_point_in_box :
  forall (southwest northeast : Location coord) (geometry : Geometry coord)
         (k : nat) (lon lat : coord),
  nth_error (geom_lonlats geometry) (2 * k) = Some lon ->
  nth_error (geom_lonlats geometry) (2 * k + 1) = Some lat ->
  leq (loc_lon southwest) lon -> leq lon (loc_lon northeast) ->
  leq (loc_lat southwest) lat -> leq lat (loc_lat northeast) ->
  is_inside float_lt southwest northeast geometry = Ok true.
Proof.
  intros southwest northeast geometry k lon lat Hlon Hlat H1 H2 H3 H4.
  assert (Hlen : 2 <= length (geom_lonlats geometry)).
  { assert (2 * k + 1 < length (geom_lonlats geometry))
      by (apply nth_error_Some; congruence).
    lia. }
  apply (envelope_exists coord float_lt float_lt_asym float_lt_negtrans)
    in Hlen as [e He].
  rewrite (is_inside_bool_of_envelope coord float_lt float_lt_asym
             float_lt_negtrans southwest northeast geometry e He).
  destruct He as ([_ Hlo] & [_ Hhi] & [_ Hlo'] & [_ Hhi']).
  assert (Ilon : is_lon (geom_lonlats geometry) lon) by now exists k.
  assert (Ilat : is_lat (geom_lonlats geometry) lat) by now exists k.
  assert (E1 : float_lt (max_lon e) (loc_lon southwest) = false)
    by exact (le_trans _ _ _ H1 (Hhi lon Ilon)).
  assert (E2 : float_lt (loc_lon northeast) (min_lon e) = false)
    by exact (le_trans _ _ _ (Hlo lon Ilon) H2).
  assert (E3 : float_lt (max_lat e) (loc_lat southwest) = false)
    by exact (le_trans _ _ _ H3 (Hhi' lat Ilat)).
  assert (E4 : float_lt (loc_lat northeast) (min_lat e) = false)
    by exact (le_trans _ _ _ (Hlo' lat Ilat) H4).
  now rewrite E1, E2, E3, E4.
Qed.

(** X12.  A geometry inside a box is inside every box that contains it. *)
Theorem is_inside_larger_box :
  forall (southwest northeast southwest' northeast' : Location coord)
         (geometry : Geometry coord),
  is_inside float_lt southwest northeast geometry = Ok true ->
  leq (loc_lon southwest') (loc_lon southwest) ->
  leq (loc_lat southwest') (loc_lat southwest) ->
  leq (loc_lon northeast) (loc_lon northeast') ->
  leq (loc_lat northeast) (loc_lat northeast') ->
  is_inside float_lt southwest' northeast' geometry = Ok true.
Proof.
  intros southwest northeast southwest' northeast' geometry H H1 H2 H3 H4.
  pose proof (is_inside_true_two_values _ _ _ H) as Hlen.
  apply (envelope_exists coord float_lt float_lt_asym float_lt_negtrans)
    in Hlen as [e He].
  rewrite (is_inside_bool_of_envelope coord float_lt float_lt_asym
             float_lt_negtrans southwest northeast geometry e He) in H.
  rewrite (is_inside_bool_of_envelope coord float_lt float_lt_asym
             float_lt_negtrans southwest' northeast' geometry e He).
  inversion H as [Hb]. rewrite Hb.
  apply andb_true_iff in Hb as [Hb1 Hb2].
  apply negb_true_iff, orb_false_iff in Hb1 as [E1 E2].
  apply negb_true_iff, orb_false_iff in Hb2 as [E3 E4].
  assert (F1 : float_lt (max_lon e) (loc_lon southwest') = false)
    by exact (le_trans _ _ _ H1 E1).
  assert (F2 : float_lt (loc_lon northeast') (min_lon e) = false)
    by exact (le_trans _ _ _ E2 H3).
  assert (F3 : float_lt (max_lat e) (loc_lat southwest') = false)
    by exact (le_trans _ _ _ H2 E3).
  assert (F4 : float_lt (loc_lat northeast') (min_lat e) = false)
    by exact (le_trans _ _ _ E4 H4).
  now rewrite F1, F2, F3, F4.
Qed.

End IsInsideMore.

Lemma is_inside_point_in_box_witness :
  is_inside Z.ltb Concrete.corner_sw Concrete.corner_ne
    (Concrete.geometry_of "P" "" "" [-40; 3; 5; 5; 70; 90]%Z) = Ok true.
Proof.
  refine (is_inside_point_in_box Z Z.ltb Z_ltb_asym Z_ltb_negtrans
            Concrete.corner_sw Concrete.corner_ne
            (Concrete.geometry_of "P" "" "" [-40; 3; 5; 5; 70; 90]%Z)
            1 5%Z 5%Z eq_refl eq_refl _ _ _ _); reflexivity.
Defined.

Lemma is_inside_larger_box_witness :
  is_inside Z.ltb {| loc_lat := -5; loc_lon := -5 |}%Z
    {| loc_lat := 20; loc_lon := 20 |}%Z Concrete.geometry_A = Ok true.
Proof.
  refine (is_inside_larger_box Z Z.ltb Z_ltb_asym Z_ltb_negtrans
            Concrete.corner_sw Concrete.corner_ne
            {| loc_lat := -5; loc_lon := -5 |}%Z
            {| loc_lat := 20; loc_lon := 20 |}%Z Concrete.geometry_A
            eq_refl _ _ _ _); reflexivity.
Defined.

(* ================================================================== *)
(** * More on [truncate_id] *)

Lemma substring_0_all : forall n s,
  String.length s <= n -> substring 0 n s = s.
Proof.
  induction n as [|n IH]; intros [|c s] H; cbn in *;
    try reflexivity; try lia.
  f_equal. apply IH. lia.
Qed.

(** X13.  [truncate_id] leaves an id unchanged exactly when the id has at
    most twelve characters, and truncating twice is truncating once. *)
Theorem truncate_id_fixed : forall id : string,
  (truncate_id id = id <-> String.length id <= 12) /\
  truncate_id (truncate_id id) = truncate_id id.
Proof.
  intro id. unfold truncate_id. split; [split|].
  - intro H. rewrite <- H, substring_0_length. apply Nat.le_min_l.
  - apply substring_0_all.
  - apply substring_0_all. rewrite substring_0_length. apply Nat.le_min_l.
Qed.

(* ================================================================== *)
(** * More on the projections and on [make_geojson] *)

Lemma flatten_combine_map : forall (A B : Type) (f : A -> B) (l1 l2 : list A),
  flatten_positions (combine (map f l1) (map f l2)) =
  map f (flatten_positions (combine l1 l2)).
Proof.
  unfold flatten_positions.
  induction l1 as [|a l1 IH]; intros [|b l2]; cbn; try reflexivity.
  now rewrite IH.
Qed.

(** Pairing the even places with the odd places and flattening gives the
    list back, without its last item when it has an odd number of them. *)
Lemma flatten_combine_evens_odds : forall (A : Type) (l : list A),
  flatten_positions (combine (evens l) (odds l))
  = firstn (2 * (length l / 2)) l.
Proof.
  intro A. induction l as [| x | x y l IH] using list_ind2.
  - reflexivity.
  - reflexivity.
  - rewrite evens_cons. unfold odds at 1 2. cbn [tl].
    rewrite evens_cons. cbn [combine length].
    replace (S (S (length l))) with (length l + 1 * 2) by lia.
    rewrite Nat.div_add by lia.
    replace (2 * (length l / 2 + 1)) with (S (S (2 * (length l / 2))))
      by lia.
    cbn [firstn]. rewrite <- IH. reflexivity.
Qed.

Lemma even_double_half : forall n, Nat.even n = true -> 2 * (n / 2) = n.
Proof.
  intros n H. apply Nat.even_spec in H as [k ->].
  rewrite (Nat.mul_comm 2 k), Nat.div_mul by lia. lia.
Qed.

Lemma comprehension_Forall2 :
  forall (A B : Type) (f : A -> res B) (l : list A) (out : list B),
  comprehension f l = Ok out <-> Forall2 (fun a b => f a = Ok b) l out.
Proof.
  induction l as [|a l IH]; intro out; cbn [comprehension].
  - split; intro H; [inversion H; constructor|now inversion H].
  - destruct (f a) as [b|e] eqn:Ea; cbn [bind].
    + destruct (comprehension f l) as [bs|e] eqn:El; cbn [bind].
      * split; intro H.
        -- inversion H; subst. constructor; [exact Ea|now apply IH].
        -- inversion H as [|? b' ? bs' Hb Hbs]; subst.
           apply IH in Hbs. congruence.
      * split; intro H; [discriminate|].
        inversion H as [|? b' ? bs' Hb Hbs]; subst.
        apply IH in Hbs. discriminate.
    + split; intro H; [discriminate|].
      inversion H; subst. congruence.
Qed.

Lemma comprehension_total :
  forall (A B : Type) (f : A -> res B) (l : list A),
  (forall a, In a l -> exists b, f a = Ok b) ->
  exists out, comprehension f l = Ok out.
Proof.
  induction l as [|a l IH]; intro H; cbn [comprehension].
  - now exists [].
  - destruct (H a (or_introl eq_refl)) as [b ->]. cbn [bind].
    destruct IH as [bs ->]; [intros; apply H; now right|].
    cbn [bind]. now exists (b :: bs).
Qed.

Lemma comprehension_raises :
  forall (A B : Type) (f : A -> res B) (l : list A) (e : exn),
  comprehension f l = Raise e -> exists a, In a l /\ f a = Raise e.
Proof.
  induction l as [|a l IH]; intros e H; cbn [comprehension] in H.
  - discriminate.
  - destruct (f a) as [b|e'] eqn:Ea; cbn [bind] in H.
    + destruct (comprehension f l) as [bs|e'] eqn:El; cbn [bind] in H;
        [discriminate|].
      inversion H; subst e'. destruct (IH e eq_refl) as (a' & Hin & Ha').
      exists a'. split; [now right|exact Ha'].
    + inversion H; subst e'. exists a. split; [now left|exact Ea].
Qed.

Section DocumentProperties.

Variable coord : Type.
Variable float_lt : coord -> coord -> bool.
Variable py_round : coord -> Z -> coord.
Variable ParseGeometry : list byte -> option (Geometry coord).
Variable ParseIntersection : list byte -> option (Intersection coord).
Variable ParseReference : list byte -> option (Reference coord).

Local Open Scope string_scope.

(** X14.  The positions of the LineString of a geometry, read one after
    the other, are the rounded values of its coordinate sequence, in order:
    all of them when their number is even, all but the last when it is
    odd. *)
Theorem geometry_feature_round_trip : forall geometry : Geometry coord,
  exists out positions,
    geometry_feature py_round geometry = Ok out /\
    json_get "geometry" out =
      Some (JObj [("type", JStr "LineString");
                  ("coordinates",
                   JList (map (fun xy => JList [JFloat (fst xy);
                                                JFloat (snd xy)])
                            positions))]) /\
    flatten_positions positions =
      map (round_coord py_round)
        (firstn (2 * (length (geom_lonlats geometry) / 2))
           (geom_lonlats geometry)) /\
    (Nat.even (length (geom_lonlats geometry)) = true ->
     flatten_positions positions =
       map (round_coord py_round) (geom_lonlats geometry)).
Proof.
  intro geometry.
  destruct (geometry_feature_coordinates coord py_round geometry)
    as (out & Hout & Hg).
  exists out. eexists. split; [exact Hout|]. split; [exact Hg|].
  rewrite flatten_combine_map, flatten_combine_evens_odds.
  split; [reflexivity|].
  intro Heven. rewrite (even_double_half _ Heven), firstn_all.
  reflexivity.
Qed.

Lemma reference_feature_Ok_iff : forall reference : Reference coord,
  (exists out, reference_feature py_round reference = Ok out) <->
  length (ref_locationReferences reference) = 2.
Proof.
  intro reference. unfold reference_feature.
  destruct (ref_locationReferences reference) as [|a [|b [|c l]]];
    cbn [length]; split;
    try (intros [out H]; discriminate); try (intro H; lia);
    try reflexivity.
  intros _. eexists. reflexivity.
Qed.

Lemma reference_feature_Raise : forall (reference : Reference coord) e,
  reference_feature py_round reference = Raise e ->
  e = ValueError /\ length (ref_locationReferences reference) <> 2.
Proof.
  intros reference e. unfold reference_feature.
  destruct (ref_locationReferences reference) as [|a [|b [|c l]]];
    cbn [length]; intro H; inversion H; split; try reflexivity; lia.
Qed.

Lemma geometry_features_total : forall geometries : list (Geometry coord),
  exists gs, comprehension (geometry_feature py_round) geometries = Ok gs.
Proof.
  intro geometries. apply comprehension_total. intros g _.
  destruct (geometry_feature_coordinates coord py_round g) as (out & H & _).
  now exists out.
Qed.

(** X15.  When every reference has exactly two location references,
    [make_geojson] returns a FeatureCollection whose [features] are the
    projections of the geometries, in the order of their dictionary,
    followed by the projections of the intersections, in the order of
    theirs, and whose [references] are the projections of the references,
    in order: one entry for every record, none left out or repeated. *)
Theorem make_geojson_document :
  forall (geometries : dict (Geometry coord))
         (intersections : dict (Intersection coord))
         (references : dict (Reference coord)),
  (forall ref, In ref (dict_values references) ->
     length (ref_locationReferences ref) = 2) ->
  exists gs rs,
    make_geojson py_round geometries intersections references =
    Ok (JObj [("type", JStr "FeatureCollection");
              ("features",
               JList (gs ++ map (intersection_feature py_round)
                                (dict_values intersections))%list);
              ("references", JList rs)]) /\
    Forall2 (fun g out => geometry_feature py_round g = Ok out)
      (dict_values geometries) gs /\
    Forall2 (fun r out => reference_feature py_round r = Ok out)
      (dict_values references) rs /\
    length gs = length geometries /\
    length rs = length references.
Proof.
  intros geometries intersections references H.
  destruct (geometry_features_total (dict_values geometries)) as [gs Hgs].
  destruct (comprehension_total _ _ (reference_feature py_round)
              (dict_values references)) as [rs Hrs].
  { intros ref Hin. apply reference_feature_Ok_iff. now apply H. }
  exists gs, rs. unfold make_geojson. rewrite Hgs, Hrs. cbn [bind].
  apply comprehension_Forall2 in Hgs, Hrs.
  split; [reflexivity|]. split; [exact Hgs|]. split; [exact Hrs|].
  apply Forall2_length in Hgs, Hrs.
  unfold dict_values in Hgs, Hrs. rewrite length_map in Hgs, Hrs.
  split; congruence.
Qed.

(** X16.  [make_geojson] raises exactly when some reference does not have
    exactly two location references, and what it raises then is
    [ValueError]; geometries and intersections never make it raise. *)
Theorem make_geojson_raises_iff :
  forall (geometries : dict (Geometry coord))
         (intersections : dict (Intersection coord))
         (references : dict (Reference coord)) (e : exn),
  make_geojson py_round geometries intersections references = Raise e <->
  e = ValueError /\
  exists ref, In ref (dict_values references) /\
              length (ref_locationReferences ref) <> 2.
Proof.
  intros geometries intersections references e.
  destruct (geometry_features_total (dict_values geometries)) as [gs Hgs].
  unfold make_geojson. rewrite Hgs. cbn [bind].
  destruct (comprehension (reference_feature py_round)
              (dict_values references)) as [rs|e'] eqn:Hrs; cbn [bind].
  - split; [discriminate|]. intros [_ (ref & Hin & Hlen)].
    apply comprehension_Forall2 in Hrs.
    exfalso. apply Hlen. apply reference_feature_Ok_iff.
    clear - Hrs Hin. induction Hrs as [|r out l outs Hr _ IH].
    + destruct Hin.
    + destruct Hin as [<-|Hin]; [now exists out|now apply IH].
  - apply comprehension_raises in Hrs as (ref & Hin & Href).
    apply reference_feature_Raise in Href as [-> Hlen].
    split.
    + intro H. inversion H; subst e. split; [reflexivity|].
      exists ref. now split.
    + intros [-> _]. reflexivity.
Qed.

(** X17.  Only the references joined to a geometry of the tile have to be
    well formed: when [get_tile] returns and every reference of the source
    layer whose geometry is kept has exactly two location references,
    [main] returns a document, whatever the other references are. *)
Theorem main_returns :
  forall (tile_sw tile_ne : Location coord)
         (geom_content inter_content ref_content : list byte)
         geometries intersections references,
  get_tile float_lt ParseGeometry ParseIntersection ParseReference
    tile_sw tile_ne geom_content inter_content ref_content
  = Ok (geometries, intersections, references) ->
  (forall ref,
     In ref (yielded (iter_objects ParseReference ref_content)) ->
     dict_mem (ref_geometryId ref) geometries = true ->
     length (ref_locationReferences ref) = 2) ->
  exists document,
    main float_lt py_round ParseGeometry ParseIntersection ParseReference
      tile_sw tile_ne geom_content inter_content ref_content
    = Ok document /\
    make_geojson py_round geometries intersections references = Ok document.
Proof.
  intros tile_sw tile_ne geom_content inter_content ref_content
         geometries intersections references H Hrefs.
  unfold main. rewrite H. cbn [bind].
  apply get_tile_inv in H as (_ & _ & HR).
  apply dict_comprehension_spec in HR as [_ HR].
  destruct (geometry_features_total (dict_values geometries)) as [gs Hgs].
  destruct (comprehension_total _ _ (reference_feature py_round)
              (dict_values references)) as [rs Hrs].
  { intros ref Hin. apply reference_feature_Ok_iff.
    destruct (HR ref Hin) as [[]|[Hy Hc]].
    apply Hrefs; [exact Hy|congruence]. }
  unfold make_geojson. rewrite Hgs, Hrs. cbn [bind].
  eexists. split; reflexivity.
Qed.

End DocumentProperties.

Lemma make_geojson_document_witness :
  exists geometries intersections references,
    Concrete.get_tile Concrete.corner_sw Concrete.corner_ne
      Concrete.geometry_layer Concrete.intersection_layer
      Concrete.reference_layer
    = Ok (geometries, intersections, references) /\
    exists gs rs,
      make_geojson Concrete.py_round geometries intersections references =
      Ok (JObj [("type", JStr "FeatureCollection");
                ("features",
                 JList (gs ++ map (intersection_feature Concrete.py_round)
                                  (dict_values intersections)));
                ("references", JList rs)]%string) /\
      length gs = 3 /\ length rs = 2.
Proof.
  do 3 eexists. split; [vm_compute; reflexivity|].
  match goal with
  | |- exists gs rs, make_geojson _ ?G ?I ?R = _ /\ _ =>
      destruct (make_geojson_document Z Concrete.py_round G I R)
        as (gs & rs & H1 & _ & _ & H2 & H3)
  end.
  - intros ref Hin. cbn in Hin.
    destruct Hin as [<-|[<-|[]]]; reflexivity.
  - exists gs, rs. split; [exact H1|]. split; [exact H2|exact H3].
Defined.

Lemma main_returns_witness :
  exists document,
    Concrete.main Concrete.corner_sw Concrete.corner_ne
      Concrete.geometry_layer Concrete.intersection_layer
      (Concrete.reference_layer
       ++ frame (Concrete.reference_message "r9" "B" []))
    = Ok document.
Proof.
  destruct (main_returns Z Z.ltb Concrete.py_round Concrete.ParseGeometry
              Concrete.ParseIntersection Concrete.ParseReference
              Concrete.corner_sw Concrete.corner_ne
              Concrete.geometry_layer Concrete.intersection_layer
              (Concrete.reference_layer
               ++ frame (Concrete.reference_message "r9" "B" []))
              _ _ _ eq_refl) as (document & H & _).
  - intros ref Hin Hmem. vm_compute in Hin.
    destruct Hin as [<-|[<-|[<-|[<-|[]]]]];
      try reflexivity; vm_compute in Hmem; discriminate.
  - exists document. exact H.
Defined.
